(** * InvenTree part models: categories, bills of materials, stock accounting

    A shallow embedding of [InvenTree/part/models.py].  The Django tables are
    lists of rows addressed by primary key, the related managers
    ([self.parts], [self.children], [self.bom_items], [self.used_in],
    [self.locations], [self.builds]) are filters on the foreign-key column,
    and Python exceptions are the [Err] branch of a small error monad. *)

From Stdlib Require Import ZArith QArith Qround Qabs List String Ascii Bool Lia.
From Stdlib Require Import DecimalString.
From Stdlib Require DecimalPos DecimalZ.
From Stdlib Require Import Relations.
Import ListNotations.

Local Open Scope string_scope.
Local Open Scope list_scope.
Local Open Scope Z_scope.

(** ** Exceptions and results *)

Inductive exception : Type :=
| ValidationError (messages : list string)
| ZeroDivisionError (msg : string)
| OverflowError (msg : string)
| TypeError (msg : string)
| RecursionError (msg : string)
| DoesNotExist (msg : string).

(** The Python class name of an exception. *)
Definition exc_class (e : exception) : string :=
  match e with
  | ValidationError _ => "ValidationError"
  | ZeroDivisionError _ => "ZeroDivisionError"
  | OverflowError _ => "OverflowError"
  | TypeError _ => "TypeError"
  | RecursionError _ => "RecursionError"
  | DoesNotExist _ => "DoesNotExist"
  end.

Inductive result (A : Type) : Type :=
| Ok (a : A)
| Err (e : exception).

Arguments Ok {A} a.
Arguments Err {A} e.

Definition bind {A B : Type} (r : result A) (k : A -> result B) : result B :=
  match r with
  | Ok a => k a
  | Err e => Err e
  end.

Notation "x <- r ;; k" := (bind r (fun x => k))
  (at level 61, r at next level, right associativity).

Definition is_ok {A : Type} (r : result A) : bool :=
  match r with Ok _ => true | Err _ => false end.

(** ** Rows of the tables *)

(** Modelled from the spec: the columns of [PartCategory] come from its base
    class [InvenTreeTree], declared outside [part/models.py]: an id, a name
    and an optional parent, whose reverse relation is [children]. *)
Module PartCategory.
Record t : Type := mk {
  pk : Z;
  name : string;
  parent : option Z
}.
End PartCategory.

(** The image, default location and default supplier columns play no part in
    the graph and quantity code and are left out. *)
Module Part.
Record t : Type := mk {
  pk : Z;
  name : string;
  description : string;
  IPN : string;
  URL : string;
  category : option Z;
  minimum_stock : Z;
  units : string;
  buildable : bool;
  consumable : bool;
  trackable : bool;
  purchaseable : bool;
  salable : bool;
  notes : string
}.

Definition set_category (p : t) (c : option Z) : t :=
  mk (pk p) (name p) (description p) (IPN p) (URL p) c (minimum_stock p)
     (units p) (buildable p) (consumable p) (trackable p) (purchaseable p)
     (salable p) (notes p).
End Part.

Module BomItem.
Record t : Type := mk {
  part : Z;
  sub_part : Z;
  quantity : Z;
  note : string
}.
End BomItem.

(** Modelled from the spec: the stock ledger entry (declared in the stock
    application, reached here through the related name [locations]) carries
    an owning part, a quantity and an in-stock flag. *)
Module StockItem.
Record t : Type := mk {
  part : Z;
  quantity : Z;
  in_stock : bool
}.
End StockItem.

(** Modelled from the spec: the build record (declared in the build
    application, reached here through the related name [builds]) carries the
    part being built, a target quantity and an active/inactive status. *)
Module Build.
Record t : Type := mk {
  pk : Z;
  part : Z;
  quantity : Z;
  is_active : bool
}.
End Build.

Record Database : Type := mkDatabase {
  categories : list PartCategory.t;
  parts : list Part.t;
  bom_items : list BomItem.t;
  stock_items : list StockItem.t;
  builds : list Build.t
}.

(** ** Python built-ins *)

(** [sum(l)] *)
Definition sum (l : list Z) : Z := fold_left Z.add l 0.

(** [str(z)] for an integer *)
Definition string_of_Z (z : Z) : string := NilZero.string_of_int (Z.to_int z).

(** [queryset.count()] and [len] *)
Definition count {A : Type} (l : list A) : Z := Z.of_nat (List.length l).

(** ** Related managers *)

Definition option_Z_eqb (a b : option Z) : bool :=
  match a, b with
  | Some x, Some y => x =? y
  | None, None => true
  | _, _ => false
  end.

(** [category.parts.all()] *)
Definition category_parts (db : Database) (cat : Z) : list Part.t :=
  filter (fun p => option_Z_eqb (Part.category p) (Some cat)) (parts db).

(** [category.children.all()] *)
Definition category_children (db : Database) (cat : Z) : list PartCategory.t :=
  filter (fun c => option_Z_eqb (PartCategory.parent c) (Some cat)) (categories db).

(** [part.bom_items.all()]: the edges whose parent is [self]. *)
Definition part_bom_items (db : Database) (self : Z) : list BomItem.t :=
  filter (fun item => BomItem.part item =? self) (bom_items db).

(** [part.used_in.all()]: the edges whose sub-part is [self]. *)
Definition used_in (db : Database) (self : Z) : list BomItem.t :=
  filter (fun item => BomItem.sub_part item =? self) (bom_items db).

(** [part.locations.all()] *)
Definition locations (db : Database) (self : Z) : list StockItem.t :=
  filter (fun loc => StockItem.part loc =? self) (stock_items db).

(** [part.builds.all()] *)
Definition part_builds (db : Database) (self : Z) : list Build.t :=
  filter (fun b => Build.part b =? self) (builds db).

(** ** Stock and allocation properties of [Part]

    Every property reaches the database through a related manager only, that
    is through the primary key of [self]; the functions take that key. *)

Definition active_builds (db : Database) (self : Z) : list Build.t :=
  filter Build.is_active (part_builds db self).

Definition inactive_builds (db : Database) (self : Z) : list Build.t :=
  filter (fun b => negb (Build.is_active b)) (part_builds db self).

Definition quantity_being_built (db : Database) (self : Z) : Z :=
  sum (map Build.quantity (active_builds db self)).

(** One dictionary [{'build': ..., 'quantity': ...}] of [build_allocation]. *)
Record Allocation : Type := mkAllocation {
  build : Build.t;
  quantity : Z
}.

(** The two nested loops of [build_allocation], each [builds.append(b)]
    extending the accumulator at its end. *)
Definition build_allocation (db : Database) (self : Z) : list Allocation :=
  fold_left
    (fun builds item =>
       fold_left
         (fun builds b =>
            builds ++ [mkAllocation b (BomItem.quantity item * Build.quantity b)])
         (active_builds db (BomItem.part item))
         builds)
    (used_in db self)
    [].

Definition allocated_build_count (db : Database) (self : Z) : Z :=
  sum (map quantity (build_allocation db self)).

Definition allocation_count (db : Database) (self : Z) : Z :=
  sum [allocated_build_count db self].

Definition stock_entries (db : Database) (self : Z) : list StockItem.t :=
  filter StockItem.in_stock (locations db self).

Definition total_stock (db : Database) (self : Z) : Z :=
  sum (map StockItem.quantity (stock_entries db self)).

Definition available_stock (db : Database) (self : Z) : Z :=
  let total := total_stock db self in
  let total := total - allocation_count db self in
  Z.max total 0.

Definition bom_count (db : Database) (self : Z) : Z :=
  count (part_bom_items db self).

Definition has_bom (db : Database) (self : Z) : bool :=
  bom_count db self >? 0.

Definition used_in_count (db : Database) (self : Z) : Z :=
  count (used_in db self).

(** ** Python floats

    [can_build] divides through [1.0 * stock / item.quantity], a binary64
    computation.  A finite double is modelled by the rational it denotes and
    every float operation by the exact rational operation followed by
    rounding to the nearest double, ties to even (53 significant bits,
    exponents down to the subnormal range). *)

(** [x * 2^e] *)
Definition scale2 (x : Q) (e : Z) : Q :=
  if 0 <=? e then (x * inject_Z (2 ^ e))%Q else (x / inject_Z (2 ^ (- e)))%Q.

(** [floor (log2 x)] for [0 < x] *)
Definition ilog2 (x : Q) : Z :=
  if Qle_bool 1 x then Z.log2 (Qfloor x) else - Z.log2_up (Qceiling (/ x)).

(** Nearest integer, ties to even. *)
Definition rne (x : Q) : Z :=
  let f := Qfloor x in
  match ((x - inject_Z f) ?= (1 # 2))%Q with
  | Lt => f
  | Gt => f + 1
  | Eq => if Z.even f then f else f + 1
  end.

(** The double nearest to the rational [x]. *)
Definition round64 (x : Q) : Q :=
  if Qeq_bool x 0 then 0%Q
  else
    let e := Z.max (ilog2 (Qabs x) - 52) (-1074) in
    scale2 (inject_Z (rne (scale2 x (- e)))) e.

(** [float(z)] for a Python integer, as the arithmetic operators apply it to
    an integer operand. *)
Definition float_of_int (z : Z) : result Q :=
  let f := round64 (inject_Z z) in
  if Qle_bool (inject_Z (2 ^ 1024)) (Qabs f)
  then Err (OverflowError "int too large to convert to float")
  else Ok f.

(** [int(x)] for a finite float: truncation towards zero. *)
Definition int_of_float (x : Q) : Z := Z.quot (Qnum x) (Zpos (Qden x)).

(** The expression [int(1.0 * stock / quantity)] of [can_build]: [stock] is
    converted and multiplied by [1.0], [quantity] is converted, a zero
    divisor raises, the quotient is rounded and truncated.  The quotient of
    two converted integers cannot overflow: a non-zero divisor has magnitude
    at least one. *)
Definition int_float_div (stock quantity : Z) : result Z :=
  a <- float_of_int stock ;;
  let a := round64 (1 * a) in
  b <- float_of_int quantity ;;
  if Qeq_bool b 0 then Err (ZeroDivisionError "float division by zero")
  else Ok (int_of_float (round64 (a / b))).

(** A [for] loop whose body may raise. *)
Fixpoint for_each {A S : Type} (l : list A) (body : S -> A -> result S) (s : S)
  : result S :=
  match l with
  | [] => Ok s
  | x :: l' => s' <- body s x ;; for_each l' body s'
  end.

(** [max(total, 0)] where [total] may still be [None]. *)
Definition max_total_0 (total : option Z) : result Z :=
  match total with
  | None => Err (TypeError "'>' not supported between instances of 'int' and 'NoneType'")
  | Some t => Ok (Z.max t 0)
  end.

(** The body of the loop of [can_build]. *)
Definition can_build_step (db : Database) (total : option Z) (item : BomItem.t)
  : result (option Z) :=
  let stock := available_stock db (BomItem.sub_part item) in
  n <- int_float_div stock (BomItem.quantity item) ;;
  Ok (match total with
      | None => Some n
      | Some t => if n <? t then Some n else Some t
      end).

Definition can_build (db : Database) (self : Z) : result Z :=
  if negb (has_bom db self) then Ok (available_stock db self)
  else
    total <- for_each (part_bom_items db self) (can_build_step db) None ;;
    max_total_0 total.

(** ** [PartCategory] *)

(** What the interpreter raises when calls nest deeper than it allows. *)
Definition recursion_error : exception :=
  RecursionError "maximum recursion depth exceeded".

(** [partcount] recurses through the child categories with no guard of its
    own; [limit] is the number of nested calls the interpreter still allows,
    and running out of it is the interpreter's recursion error. *)
Fixpoint partcount (limit : nat) (db : Database) (self : Z) : result Z :=
  match limit with
  | O => Err recursion_error
  | S limit' =>
      for_each (category_children db self)
        (fun count child =>
           c <- partcount limit' db (PartCategory.pk child) ;;
           Ok (count + c))
        (count (category_parts db self))
  end.

Definition has_parts (db : Database) (self : Z) : bool :=
  count (category_parts db self) >? 0.

Definition set_parent (c : PartCategory.t) (p : option Z) : PartCategory.t :=
  PartCategory.mk (PartCategory.pk c) (PartCategory.name c) p.

(** [save()] of a row read from a table: the row with that primary key is
    overwritten. *)
Definition save_row {A : Type} (key : A -> Z) (rows : list A) (x : A) : list A :=
  map (fun r => if key r =? key x then x else r) rows.

(** [part.save()] *)
Definition save_part (db : Database) (p : Part.t) : Database :=
  mkDatabase (categories db) (save_row Part.pk (parts db) p)
    (bom_items db) (stock_items db) (builds db).

(** [child.save()] *)
Definition save_category (db : Database) (c : PartCategory.t) : Database :=
  mkDatabase (save_row PartCategory.pk (categories db) c)
    (parts db) (bom_items db) (stock_items db) (builds db).

(** The [pre_delete] receiver.  Each queryset is read when its loop starts;
    the loop then saves the rows it read, one by one. *)
Definition before_delete_part_category (db : Database) (instance : PartCategory.t)
  : Database :=
  let db1 :=
    fold_left
      (fun db part => save_part db (Part.set_category part (PartCategory.parent instance)))
      (category_parts db (PartCategory.pk instance))
      db in
  fold_left
    (fun db child => save_category db (set_parent child (PartCategory.parent instance)))
    (category_children db1 (PartCategory.pk instance))
    db1.

(** ** [BomItem] validation *)

(** [Part.__str__] *)
Definition Part_str (p : Part.t) : string :=
  (Part.name p ++ " - " ++ Part.description p)%string.

(** A [BomItem] instance that is being validated holds its two parts as
    objects; the rows of the table hold their keys. *)
Record BomItemInstance : Type := mkBomItemInstance {
  part : Part.t;
  sub_part : Part.t;
  item_quantity : Z;
  note : string
}.

Definition self_reference_message : string :=
  "A part cannot contain itself as a BOM item".

Definition recursive_message (p1 p2 : Part.t) : string :=
  ("Part '" ++ Part_str p1 ++ "' is  used in BOM for '" ++ Part_str p2
   ++ "' (recursive)")%string.

(** [BomItem.clean].  Model instances compare by primary key, and
    [item.sub_part] of a stored row is the part with the key the row holds. *)
Definition clean (db : Database) (self : BomItemInstance) : result unit :=
  if Part.pk (part self) =? Part.pk (sub_part self)
  then Err (ValidationError [self_reference_message])
  else
    for_each (part_bom_items db (Part.pk (sub_part self)))
      (fun _ item =>
         if Part.pk (part self) =? BomItem.sub_part item
         then Err (ValidationError [recursive_message (part self) (sub_part self)])
         else Ok tt)
      tt.

(** The field declarations of [BomItem], as the model validation of the
    framework ([Model.full_clean]) reads them.  [ForeignKey.validate] looks
    the key up among the rows of the related table that satisfy
    [limit_choices_to] and reports the key when there is none; [quantity]
    carries [MinValueValidator(0)]; [note] has [max_length=100].  The upper
    bound that a database backend puts on an integer column is not part of
    the declarations and is left out. *)
Record ForeignKey : Type := mkForeignKey {
  limit_choices_to : Part.t -> bool
}.

Definition part_field : ForeignKey := mkForeignKey Part.buildable.
Definition sub_part_field : ForeignKey := mkForeignKey Part.consumable.

Definition ForeignKey_validate (f : ForeignKey) (db : Database) (value : Z)
  : list string :=
  if existsb (fun p => (Part.pk p =? value) && limit_choices_to f p) (parts db)
  then []
  else [("Part instance with id " ++ string_of_Z value ++ " does not exist.")%string].

Definition MinValueValidator (limit_value value : Z) : list string :=
  if value <? limit_value
  then [("Ensure this value is greater than or equal to "
         ++ string_of_Z limit_value ++ ".")%string]
  else [].

Definition MaxLengthValidator (limit_value : Z) (value : string) : list string :=
  let show_value := Z.of_nat (String.length value) in
  if limit_value <? show_value
  then [("Ensure this value has at most " ++ string_of_Z limit_value
         ++ " characters (it has " ++ string_of_Z show_value ++ ").")%string]
  else [].

(** [clean_fields]: the errors of each field, in declaration order. *)
Definition clean_fields (db : Database) (self : BomItemInstance)
  : list string * list string * list string * list string :=
  (ForeignKey_validate part_field db (Part.pk (part self)),
   ForeignKey_validate sub_part_field db (Part.pk (sub_part self)),
   MinValueValidator 0 (item_quantity self),
   MaxLengthValidator 100 (note self)).

(** [validate_unique] for [unique_together = ('part', 'sub_part')]. *)
Definition validate_unique (db : Database) (self : BomItemInstance) : list string :=
  if existsb (fun item => (BomItem.part item =? Part.pk (part self))
                          && (BomItem.sub_part item =? Part.pk (sub_part self)))
             (bom_items db)
  then ["BOM Item with this Part and Sub part already exists."]
  else [].

(** [full_clean]: field validation, then [clean], then the uniqueness check
    when both of its fields passed; every error is collected and a single
    [ValidationError] is raised when there is any. *)
Definition full_clean (db : Database) (self : BomItemInstance) : result unit :=
  let '(e_part, e_sub_part, e_quantity, e_note) := clean_fields db self in
  let e_clean :=
    match clean db self with
    | Err (ValidationError messages) => messages
    | _ => []
    end in
  let e_unique :=
    match e_part, e_sub_part with
    | [], [] => validate_unique db self
    | _, _ => []
    end in
  match e_part ++ e_sub_part ++ e_quantity ++ e_note ++ e_clean ++ e_unique with
  | [] => Ok tt
  | errors => Err (ValidationError errors)
  end.

(** [save()] of a new instance: a row is inserted. *)
Definition save_bom_item (db : Database) (self : BomItemInstance) : Database :=
  mkDatabase (categories db) (parts db)
    (bom_items db ++
       [BomItem.mk (Part.pk (part self)) (Part.pk (sub_part self))
                   (item_quantity self) (note self)])
    (stock_items db) (builds db).

(** Modelled from the spec: the edge insertion of the BOM graph (the view
    that creates a BOM line lives outside [part/models.py]) validates the new
    edge and persists it only when validation passed. *)
Definition add_edge (db : Database) (self : BomItemInstance)
  : Database * result unit :=
  match full_clean db self with
  | Ok _ => (save_bom_item db self, Ok tt)
  | Err e => (db, Err e)
  end.

(** ** Shapes of a database *)

(** [d] is the key of a child category of the category with key [c]. *)
Definition child_of (db : Database) (c d : Z) : Prop :=
  exists row, In row (categories db)
              /\ PartCategory.pk row = d
              /\ PartCategory.parent row = Some c.

(** The parent relation is a forest: no category is its own descendant. *)
Definition forest (db : Database) : Prop :=
  forall c, ~ clos_trans Z (child_of db) c c.

(** Walking down from [c] through child links can reach a category that is
    its own descendant. *)
Definition reaches_cycle (db : Database) (c : Z) : Prop :=
  exists d, clos_refl_trans Z (child_of db) c d /\ clos_trans Z (child_of db) d d.

(** A descending walk through child links, as a list of keys. *)
Inductive chain (db : Database) : list Z -> Prop :=
| chain_one (c : Z) : chain db [c]
| chain_cons (c d : Z) (l : list Z) :
    child_of db c d -> chain db (d :: l) -> chain db (c :: d :: l).

(** Some row of [l] has the key of [r]. *)
Definition key_in {A : Type} (key : A -> Z) (l : list A) (r : A) : bool :=
  existsb (fun x => key x =? key r) l.

(** Primary keys identify the rows of the part and category tables. *)
Definition primary_keys_unique (db : Database) : Prop :=
  NoDup (map Part.pk (parts db)) /\ NoDup (map PartCategory.pk (categories db)).

(** Stock entries, BOM lines and builds carry non-negative quantities. *)
Definition quantities_nonneg (db : Database) : Prop :=
  Forall (fun loc => 0 <= StockItem.quantity loc) (stock_items db)
  /\ Forall (fun item => 0 <= BomItem.quantity item) (bom_items db)
  /\ Forall (fun b => 0 <= Build.quantity b) (builds db).

(** [sub] occurs in [s]. *)
Definition occurs_in (sub s : string) : Prop :=
  exists pre post, s = (pre ++ sub ++ post)%string.

(** The entries that one BOM line contributes to [build_allocation]. *)
Definition allocations_of (db : Database) (item : BomItem.t) : list Allocation :=
  map (fun b => mkAllocation b (BomItem.quantity item * Build.quantity b))
      (active_builds db (BomItem.part item)).

(** The least element of a non-empty list [n :: ns]. *)
Definition minimum (n : Z) (ns : list Z) : Z := fold_left Z.min ns n.

(** The number of units of one BOM line that the available stock covers. *)
Definition units_covered (db : Database) (item : BomItem.t) : Z :=
  available_stock db (BomItem.sub_part item) / BomItem.quantity item.

(** Every integer of magnitude up to [exact_bound] is a double. *)
Definition exact_bound : Z := 2 ^ 53.

(** A BOM line on which the float division of [can_build] is exact. *)
Definition exact_line (db : Database) (item : BomItem.t) : Prop :=
  0 < BomItem.quantity item < exact_bound
  /\ available_stock db (BomItem.sub_part item) < exact_bound.

(** Part [a] lists part [b] in its BOM. *)
Definition uses (db : Database) (a b : Z) : Prop :=
  exists item, In item (bom_items db)
               /\ BomItem.part item = a /\ BomItem.sub_part item = b.

(** ** Sample data *)

Definition new_part (pk : Z) (name description : string) (buildable : bool) : Part.t :=
  Part.mk pk name description "" "" None 0 "pcs" buildable true false true false "".

Definition Widget : Part.t := new_part 1 "Widget" "assembled widget" true.
Definition Screw : Part.t := new_part 2 "Screw" "M3 screw" false.
Definition Bracket : Part.t := new_part 3 "Bracket" "steel bracket" false.
Definition Gadget : Part.t := new_part 4 "Gadget" "boxed gadget" true.

Definition gadget_build : Build.t := Build.mk 1 4 2 true.

(** A Widget takes four Screws and one Bracket, a Gadget takes five Widgets;
    one active build of two Gadgets and one finished build. *)
Definition factory : Database :=
  mkDatabase []
    [Widget; Screw; Bracket; Gadget]
    [BomItem.mk 1 2 4 ""; BomItem.mk 1 3 1 ""; BomItem.mk 4 1 5 "boxed"]
    [StockItem.mk 2 40 true; StockItem.mk 2 5 false; StockItem.mk 3 3 true;
     StockItem.mk 1 12 true]
    [gadget_build; Build.mk 2 4 7 false].

(** The same factory with a BOM line of quantity zero added to the Widget. *)
Definition factory_zero : Database :=
  mkDatabase [] (parts factory)
    (bom_items factory ++ [BomItem.mk 1 4 0 "optional"])
    (stock_items factory) (builds factory).

(** The factory with four Widgets on hand only: the ten Widgets that the
    active Gadget build takes exceed the stock. *)
Definition overbooked : Database :=
  mkDatabase [] (parts factory) (bom_items factory)
    [StockItem.mk 1 4 true]
    (builds factory).

(** Three parts chained [1 -> 2 -> 3]. *)
Definition chain_db : Database :=
  mkDatabase []
    [new_part 1 "A" "top" true; new_part 2 "B" "middle" true;
     new_part 3 "C" "bottom" true]
    [BomItem.mk 1 2 1 ""; BomItem.mk 2 3 1 ""]
    [] [].

(** A category tree of depth three below its root, with parts at every
    level. *)
Definition category_db : Database :=
  mkDatabase
    [PartCategory.mk 1 "Root" None;
     PartCategory.mk 2 "Electronics" (Some 1);
     PartCategory.mk 3 "Passives" (Some 2);
     PartCategory.mk 4 "Resistors" (Some 3);
     PartCategory.mk 5 "Mechanical" (Some 1)]
    [Part.set_category Widget (Some 1);
     Part.set_category Screw (Some 5);
     Part.set_category Bracket (Some 5);
     Part.set_category Gadget (Some 2);
     Part.set_category (new_part 5 "R10k" "resistor" false) (Some 4);
     Part.set_category (new_part 6 "C100n" "capacitor" false) (Some 3)]
    [] [] [].

(** Two categories that are each other's parent. *)
Definition cyclic_db : Database :=
  mkDatabase
    [PartCategory.mk 1 "Left" (Some 2); PartCategory.mk 2 "Right" (Some 1)]
    [Part.set_category Widget (Some 1)]
    [] [] [].

(** ** Python strings and paths *)

Definition newline : string := String (ascii_of_nat 10) EmptyString.

(** [s.count(c)] for a one-character [c] *)
Fixpoint str_count (c : ascii) (s : string) : Z :=
  match s with
  | EmptyString => 0
  | String a s' => (if Ascii.eqb a c then 1 else 0) + str_count c s'
  end.

(** [s.split(c)] for a one-character separator [c]; the result is never
    empty, so that indexing it with [-1] cannot fail. *)
Fixpoint split (c : ascii) (s : string) : list string :=
  match s with
  | EmptyString => [""]
  | String a s' =>
      if Ascii.eqb a c then "" :: split c s'
      else match split c s' with
           | w :: ws => String a w :: ws
           | [] => [String a ""]
           end
  end.

(** [sep.join(l)] *)
Fixpoint join (sep : string) (l : list string) : string :=
  match l with
  | [] => ""
  | x :: l' =>
      match l' with
      | [] => x
      | _ :: _ => (x ++ sep ++ join sep l')%string
      end
  end.

(** [s.lower()] on the ASCII letters; other bytes are kept. *)
Definition lower_char (a : ascii) : ascii :=
  let n := nat_of_ascii a in
  if ((65 <=? n) && (n <=? 90))%nat then ascii_of_nat (n + 32) else a.

Fixpoint lower (s : string) : string :=
  match s with
  | EmptyString => EmptyString
  | String a s' => String (lower_char a) (lower s')
  end.

Definition starts_with_slash (s : string) : bool :=
  match s with
  | String a _ => Ascii.eqb a "/"
  | EmptyString => false
  end.

Fixpoint ends_with_slash (s : string) : bool :=
  match s with
  | EmptyString => false
  | String a EmptyString => Ascii.eqb a "/"
  | String _ s' => ends_with_slash s'
  end.

(** [os.path.join(a, p)] of the POSIX path module. *)
Definition path_join (a p : string) : string :=
  if starts_with_slash p then p
  else if (String.eqb a "" || ends_with_slash a)%bool then (a ++ p)%string
  else (a ++ "/" ++ p)%string.

(** [str(instance.pk)]: the key of a stored instance, [None] before the
    first save. *)
Definition str_pk (pk : option Z) : string :=
  match pk with
  | Some z => string_of_Z z
  | None => "None"
  end.

(** ** Upload paths *)

Definition rename_part_image (pk : option Z) (filename : string) : string :=
  let base := "part_images" in
  let ext :=
    if str_count "." filename >? 0 then last (split "." filename) ""
    else "" in
  let fn := ("part_" ++ str_pk pk ++ "_img")%string in
  let fn := if String.eqb ext "" then fn else (fn ++ "." ++ ext)%string in
  path_join base fn.

Definition attach_file (pk : option Z) (filename : string) : string :=
  let base := "part_files" in
  let fn := (str_pk pk ++ "_" ++ filename)%string in
  path_join base fn.

(** ** BOM export *)

(** [item.sub_part] when the row itself is read: the part with the key the
    line holds. *)
Definition get_part (db : Database) (pk : Z) : result Part.t :=
  match find (fun p => Part.pk p =? pk) (parts db) with
  | Some p => Ok p
  | None => Err (DoesNotExist "Part matching query does not exist.")
  end.

Definition export_header : list string :=
  ["Part"; "Description"; "Quantity"; "Note"].

(** One pass of the loop of [export_bom]: the line of a BOM item, every
    value converted with [str]. *)
Definition export_row (db : Database) (it : BomItem.t) : result (list string) :=
  sub <- get_part db (BomItem.sub_part it) ;;
  Ok [Part.name sub; Part.description sub; string_of_Z (BomItem.quantity it);
      BomItem.note it].

(** The rows that [export_bom] builds before it looks at the format. *)
Definition export_rows (db : Database) (self : Z) : result (list (list string)) :=
  for_each (part_bom_items db self)
    (fun rows it => line <- export_row db it ;; Ok (rows ++ [line]))
    [].

Definition export_bom_csv (header : list string) (rows : list (list string))
  : string :=
  fold_left (fun out row => (out ++ newline ++ join "," row)%string)
            rows (join "," header).

Definition export_bom_xls : string := "".
Definition export_bom_xml : string := "".
Definition export_bom_htm : string := "".
Definition export_bom_pdf : string := "".

(** [export_bom(format=...)]; [None] is Python's [None], returned for a
    format that is not known. *)
Definition export_bom (db : Database) (self : Z) (format : option string)
  : result (option string) :=
  rows <- export_rows db self ;;
  let file_format := lower (match format with Some f => f | None => "csv" end) in
  if String.eqb file_format "csv" then Ok (Some (export_bom_csv export_header rows))
  else if (String.eqb file_format "xls" || String.eqb file_format "xlsx")%bool
       then Ok (Some export_bom_xls)
  else if String.eqb file_format "xml" then Ok (Some export_bom_xml)
  else if (String.eqb file_format "htm" || String.eqb file_format "html")%bool
       then Ok (Some export_bom_htm)
  else if String.eqb file_format "pdf" then Ok (Some export_bom_pdf)
  else Ok None.

(** ** Further shapes *)

(** No part lists a part that lists it back; in particular no part lists
    itself. *)
Definition no_two_cycle (db : Database) : Prop :=
  forall a b, uses db a b -> ~ uses db b a.

(** At most one BOM line per pair of parent and sub-part. *)
Definition lines_unique (db : Database) : Prop :=
  NoDup (map (fun item => (BomItem.part item, BomItem.sub_part item)) (bom_items db)).

(** Every BOM line refers to stored parts. *)
Definition lines_refer_to_parts (db : Database) : Prop :=
  forall item, In item (bom_items db) ->
               In (BomItem.part item) (map Part.pk (parts db))
               /\ In (BomItem.sub_part item) (map Part.pk (parts db)).

(** The characters of a string. *)
Fixpoint chars (s : string) : list ascii :=
  match s with
  | EmptyString => []
  | String a s' => a :: chars s'
  end.

(** A sample BOM for the export: the Widget lines of the factory. *)
Definition widget_rows : list (list string) :=
  [["Screw"; "M3 screw"; "4"; ""]; ["Bracket"; "steel bracket"; "1"; ""]].

(** The standing shape of the BOM table: no two-cycles, one line per pair,
    lines between stored parts, non-negative quantities. *)
Definition bom_wellformed (db : Database) : Prop :=
  no_two_cycle db
  /\ lines_unique db
  /\ lines_refer_to_parts db
  /\ Forall (fun item => 0 <= BomItem.quantity item) (bom_items db).

(** The row that [save()] inserts for an instance. *)
Definition row_of (self : BomItemInstance) : BomItem.t :=
  BomItem.mk (Part.pk (part self)) (Part.pk (sub_part self))
             (item_quantity self) (note self).

Definition unique_message : string :=
  "BOM Item with this Part and Sub part already exists.".

(** A field that holds neither a comma nor a line break. *)
Definition plain_field (s : string) : Prop :=
  str_count "," s = 0 /\ str_count (ascii_of_nat 10) s = 0.

(** The line that [export_bom] builds for a BOM item whose sub-part is
    [sub]. *)
Definition export_line (sub : Part.t) (it : BomItem.t) : list string :=
  [Part.name sub; Part.description sub; string_of_Z (BomItem.quantity it);
   BomItem.note it].

(** [int(s)] for a decimal numeral, [None] when [s] is not one. *)
Definition Z_of_string (s : string) : option Z :=
  option_map Z.of_int (NilZero.int_of_string s).

(** The keys of the categories that [partcount] visits from [c], in the
    order of the visit. *)
Fixpoint subtree (limit : nat) (db : Database) (c : Z) : list Z :=
  match limit with
  | O => []
  | S limit' =>
      c :: flat_map (fun child => subtree limit' db (PartCategory.pk child))
                    (category_children db c)
  end.

(** The part is in one of the categories [ks]. *)
Definition categorised_in (ks : list Z) (p : Part.t) : bool :=
  match Part.category p with
  | Some k => existsb (Z.eqb k) ks
  | None => false
  end.

(** * Properties *)

(** ** Sums and loops *)

Lemma fold_left_add (l : list Z) (a : Z) : fold_left Z.add l a = a + sum l.
Proof.
  unfold sum. revert a. induction l as [|x l IH]; intros a; cbn.
  - lia.
  - rewrite (IH (a + x)), (IH x). lia.
Qed.

Lemma sum_cons (x : Z) (l : list Z) : sum (x :: l) = x + sum l.
Proof. unfold sum at 1. cbn. apply fold_left_add. Qed.

Lemma sum_app (l1 l2 : list Z) : sum (l1 ++ l2) = sum l1 + sum l2.
Proof.
  induction l1 as [|x l1 IH]; cbn [app].
  - reflexivity.
  - rewrite !sum_cons, IH. lia.
Qed.

Lemma sum_nonneg (l : list Z) : Forall (fun x => 0 <= x) l -> 0 <= sum l.
Proof.
  induction 1 as [|x l Hx _ IH].
  - reflexivity.
  - rewrite sum_cons. lia.
Qed.

Lemma sum_scale (k : Z) (l : list Z) : sum (map (Z.mul k) l) = k * sum l.
Proof.
  induction l as [|x l IH]; cbn [map].
  - unfold sum; cbn; lia.
  - rewrite !sum_cons, IH. lia.
Qed.

Lemma fold_left_ext {A B : Type} (f g : A -> B -> A) (l : list B) (a : A) :
  (forall a x, f a x = g a x) -> fold_left f l a = fold_left g l a.
Proof.
  intros H. revert a. induction l as [|x l IH]; intros a; cbn.
  - reflexivity.
  - rewrite H. apply IH.
Qed.

Lemma append_loop {A B : Type} (f : A -> B) (l : list A) (acc : list B) :
  fold_left (fun acc x => acc ++ [f x]) l acc = acc ++ map f l.
Proof.
  revert acc. induction l as [|x l IH]; intros acc; cbn.
  - now rewrite app_nil_r.
  - rewrite IH, <- app_assoc. reflexivity.
Qed.

Lemma extend_loop {A B : Type} (g : A -> list B) (l : list A) (acc : list B) :
  fold_left (fun acc x => acc ++ g x) l acc = acc ++ flat_map g l.
Proof.
  revert acc. induction l as [|x l IH]; intros acc; cbn.
  - now rewrite app_nil_r.
  - rewrite IH, <- app_assoc. reflexivity.
Qed.

(** ** Allocation *)

Lemma build_allocation_flat_map (db : Database) (self : Z) :
  build_allocation db self = flat_map (allocations_of db) (used_in db self).
Proof.
  unfold build_allocation.
  rewrite (fold_left_ext _ (fun builds item => builds ++ allocations_of db item)).
  - apply (extend_loop (allocations_of db) (used_in db self) []).
  - intros builds item. apply append_loop.
Qed.

Lemma sum_allocations_of (db : Database) (item : BomItem.t) :
  sum (map quantity (allocations_of db item))
  = BomItem.quantity item * quantity_being_built db (BomItem.part item).
Proof.
  unfold allocations_of, quantity_being_built.
  rewrite map_map. cbn [quantity].
  rewrite <- sum_scale, map_map. reflexivity.
Qed.

Lemma allocated_build_count_by_line (db : Database) (self : Z) :
  allocated_build_count db self
  = sum (map (fun item =>
                BomItem.quantity item * quantity_being_built db (BomItem.part item))
             (used_in db self)).
Proof.
  unfold allocated_build_count. rewrite build_allocation_flat_map.
  induction (used_in db self) as [|item l IH]; cbn [flat_map map].
  - reflexivity.
  - rewrite map_app, sum_app, sum_cons, IH, sum_allocations_of. reflexivity.
Qed.

Lemma allocation_count_eq (db : Database) (self : Z) :
  allocation_count db self = allocated_build_count db self.
Proof. unfold allocation_count. rewrite sum_cons. unfold sum; cbn. lia. Qed.

(** C7: [build_allocation] holds, for every BOM line that uses the part and
    every active build of that line's parent, exactly one entry, of quantity
    line quantity times build quantity, and [allocated_build_count] is the
    sum of the entries' quantities. *)
Theorem build_allocation_entries (db : Database) (self : Z) :
  build_allocation db self
  = flat_map
      (fun item =>
         map (fun b => mkAllocation b (BomItem.quantity item * Build.quantity b))
             (active_builds db (BomItem.part item)))
      (used_in db self)
  /\ (forall item, In item (used_in db self)
                   <-> In item (bom_items db) /\ BomItem.sub_part item = self)
  /\ (forall p b, In b (active_builds db p)
                  <-> In b (builds db) /\ Build.part b = p /\ Build.is_active b = true)
  /\ allocated_build_count db self = sum (map quantity (build_allocation db self)).
Proof.
  split; [apply build_allocation_flat_map|].
  split.
  { intros item. unfold used_in. rewrite filter_In, Z.eqb_eq. reflexivity. }
  split; [|reflexivity].
  intros p b. unfold active_builds, part_builds.
  rewrite !filter_In, Z.eqb_eq. tauto.
Qed.

(** ** Available stock *)

Lemma available_stock_nonneg (db : Database) (self : Z) :
  0 <= available_stock db self.
Proof. unfold available_stock. apply Z.le_max_r. Qed.

(** C2: [available_stock] is [max(total_stock - allocation_count, 0)], hence
    never negative, whatever the allocation. *)
Theorem available_stock_clamped (db : Database) (self : Z) :
  available_stock db self = Z.max (total_stock db self - allocation_count db self) 0
  /\ 0 <= available_stock db self
  /\ (total_stock db self < allocation_count db self -> available_stock db self = 0).
Proof.
  repeat split.
  - apply available_stock_nonneg.
  - intros Hover. unfold available_stock. apply Z.max_r. lia.
Qed.

Lemma available_stock_clamped_witness :
  total_stock overbooked 1 = 4
  /\ allocation_count overbooked 1 = 10
  /\ available_stock overbooked 1 = 0.
Proof.
  split; [reflexivity|]. split; [reflexivity|].
  apply (available_stock_clamped overbooked 1). reflexivity.
Defined.

Lemma total_stock_nonneg (db : Database) (self : Z) :
  quantities_nonneg db -> 0 <= total_stock db self.
Proof.
  intros (Hstock & _ & _). unfold total_stock. apply sum_nonneg.
  apply Forall_map.
  unfold stock_entries, locations.
  apply Forall_forall. intros loc Hin.
  apply filter_In in Hin as [Hin _]. apply filter_In in Hin as [Hin _].
  rewrite Forall_forall in Hstock. now apply Hstock.
Qed.

Lemma quantity_being_built_nonneg (db : Database) (p : Z) :
  quantities_nonneg db -> 0 <= quantity_being_built db p.
Proof.
  intros (_ & _ & Hbuilds). unfold quantity_being_built. apply sum_nonneg.
  apply Forall_map. apply Forall_forall. intros b Hin.
  unfold active_builds, part_builds in Hin.
  apply filter_In in Hin as [Hin _]. apply filter_In in Hin as [Hin _].
  rewrite Forall_forall in Hbuilds. now apply Hbuilds.
Qed.

Lemma allocation_count_nonneg (db : Database) (self : Z) :
  quantities_nonneg db -> 0 <= allocation_count db self.
Proof.
  intros Hq. rewrite allocation_count_eq, allocated_build_count_by_line.
  apply sum_nonneg. apply Forall_map. apply Forall_forall. intros item Hin.
  apply filter_In in Hin as [Hin _].
  pose proof Hq as (_ & Hbom & _). rewrite Forall_forall in Hbom.
  apply Z.mul_nonneg_nonneg; [now apply Hbom|].
  now apply quantity_being_built_nonneg.
Qed.

(** C10: with non-negative stock, line and build quantities the available
    stock of a part lies between zero and its total stock. *)
Theorem available_stock_bounded (db : Database) (self : Z) :
  quantities_nonneg db ->
  0 <= allocation_count db self
  /\ 0 <= available_stock db self <= total_stock db self.
Proof.
  intros Hq.
  pose proof (total_stock_nonneg db self Hq).
  pose proof (allocation_count_nonneg db self Hq).
  unfold available_stock. lia.
Qed.

Lemma available_stock_bounded_witness :
  0 <= allocation_count factory 1
  /\ 0 <= available_stock factory 1 <= total_stock factory 1.
Proof.
  apply (available_stock_bounded factory 1).
  unfold quantities_nonneg; cbn. repeat split; repeat constructor; cbn; lia.
Defined.

(** ** Rounding lemmas *)

#[local] Instance scale2_comp : Proper (Qeq ==> eq ==> Qeq) scale2.
Proof.
  intros x y Hxy e e' <-. unfold scale2.
  destruct (0 <=? e)%Z; rewrite Hxy; reflexivity.
Qed.

#[local] Instance ilog2_comp : Proper (Qeq ==> eq) ilog2.
Proof.
  intros x y Hxy. unfold ilog2. rewrite Hxy.
  destruct (Qle_bool 1 y); rewrite Hxy; reflexivity.
Qed.

#[local] Instance rne_comp : Proper (Qeq ==> eq) rne.
Proof.
  intros x y Hxy. unfold rne.
  rewrite (Qfloor_comp _ _ Hxy).
  assert (H : (x - inject_Z (Qfloor y) == y - inject_Z (Qfloor y))%Q)
    by (rewrite Hxy; reflexivity).
  rewrite H. reflexivity.
Qed.

#[local] Instance round64_comp : Proper (Qeq ==> Qeq) round64.
Proof.
  intros x y Hxy. unfold round64.
  rewrite (Qeqb_comp _ _ Hxy _ _ (Qeq_refl 0%Q)).
  destruct (Qeq_bool y 0); [reflexivity|].
  rewrite Hxy. reflexivity.
Qed.

Lemma rne_inject_Z (z : Z) : rne (inject_Z z) = z.
Proof.
  unfold rne. rewrite Qfloor_Z.
  replace (inject_Z z - inject_Z z ?= 1 # 2)%Q with Lt; [reflexivity|].
  symmetry. unfold Qcompare. simpl. apply Z.compare_lt_iff. lia.
Qed.

Lemma rne_lower (x : Q) (j : Z) : (inject_Z j <= x)%Q -> j <= rne x.
Proof.
  intros H. apply Qfloor_resp_le in H. rewrite Qfloor_Z in H.
  unfold rne. destruct (_ ?= _)%Q; [destruct (Z.even _)| |]; lia.
Qed.

Lemma rne_upper (x : Q) : 2 * rne x * Zpos (Qden x) <= 2 * Qnum x + Zpos (Qden x).
Proof.
  unfold rne. destruct x as [n p]. cbn [Qnum Qden].
  pose proof (Z.div_mod n (Zpos p) ltac:(lia)) as Hdm.
  pose proof (Z.mod_pos_bound n (Zpos p) ltac:(lia)) as Hb.
  set (f := Qfloor (n # p)). assert (Hf : f = n / Zpos p) by reflexivity.
  destruct (Qcompare_spec ((n # p) - inject_Z f) (1 # 2)) as [H|H|H].
  - unfold Qeq in H. cbn in H. destruct (Z.even f); nia.
  - unfold Qlt in H. cbn in H. nia.
  - unfold Qlt in H. cbn in H. nia.
Qed.

Lemma int_of_float_nonneg (x : Q) : (0 <= x)%Q -> int_of_float x = Qfloor x.
Proof.
  destruct x as [n p]. unfold Qle, int_of_float, Qfloor. cbn. intros H.
  apply Z.quot_div_nonneg; lia.
Qed.

Lemma pow2_split (a b : Z) : 0 <= a -> 0 <= b ->
  2 ^ (a + b) = 2 ^ a * 2 ^ b /\ 0 < 2 ^ a /\ 0 < 2 ^ b.
Proof.
  intros Ha Hb. rewrite Z.pow_add_r by lia.
  repeat split; apply Z.pow_pos_nonneg; lia.
Qed.

Lemma ilog2_spec (x : Q) (t : Z) :
  (0 < x)%Q -> 0 <= t -> 0 <= t - ilog2 x ->
  2 ^ t * Zpos (Qden x) <= Qnum x * 2 ^ (t - ilog2 x) < 2 ^ (t + 1) * Zpos (Qden x).
Proof.
  destruct x as [n p]. unfold Qlt. cbn [Qnum Qden]. intros Hn Ht.
  assert (Hn' : 0 < n) by lia. clear Hn.
  unfold ilog2. destruct (Qle_bool 1 (n # p)) eqn:Hle.
  - apply Qle_bool_iff in Hle. unfold Qle in Hle; cbn in Hle.
    unfold Qfloor. set (a := n / Zpos p).
    assert (Ha : 0 < a) by (apply Z.div_str_pos; lia).
    pose proof (Z.log2_spec a Ha) as [Hlo Hhi].
    pose proof (Z.log2_nonneg a) as HE. set (E := Z.log2 a) in *.
    intros HtE.
    pose proof (Z.div_mod n (Zpos p) ltac:(lia)) as Hdm. fold a in Hdm.
    pose proof (Z.mod_pos_bound n (Zpos p) ltac:(lia)) as Hb.
    replace (Z.succ E) with (E + 1) in Hhi by lia.
    destruct (pow2_split E 1 HE ltac:(lia)) as (HX1 & HX & _).
    change (2 ^ 1) with 2 in HX1. rewrite HX1 in Hhi.
    destruct (pow2_split E (t - E) HE HtE) as (HXY & _ & HY).
    replace (E + (t - E)) with t in HXY by lia.
    destruct (pow2_split t 1 Ht ltac:(lia)) as (HT1 & _ & _).
    change (2 ^ 1) with 2 in HT1. rewrite HT1, HXY.
    set (X := 2 ^ E) in *. set (Y := 2 ^ (t - E)) in *.
    split; nia.
  - assert (Hlt : Zpos p > n).
    { destruct (Z_le_gt_dec (Zpos p) n) as [H|H]; [|exact H].
      exfalso. assert (Qle_bool 1 (n # p) = true); [|congruence].
      apply Qle_bool_iff. unfold Qle; cbn. lia. }
    clear Hle. destruct n as [|q|q]; try lia.
    cbn [Qinv Qnum Qden]. unfold Qceiling, Qfloor. cbn [Qopp Qnum Qden].
    set (c := - (- Zpos p / Zpos q)).
    pose proof (Z.div_mod (- Zpos p) (Zpos q) ltac:(lia)) as Hdm.
    pose proof (Z.mod_pos_bound (- Zpos p) (Zpos q) ltac:(lia)) as Hb.
    assert (Hc1 : Zpos p <= c * Zpos q) by (unfold c; nia).
    assert (Hc2 : (c - 1) * Zpos q < Zpos p) by (unfold c; nia).
    assert (Hc : 1 < c) by nia.
    pose proof (Z.log2_up_spec c Hc) as [Hlo Hhi].
    assert (HL : 0 < Z.log2_up c) by (apply Z.log2_up_pos; lia).
    set (L := Z.log2_up c) in *. intros HtE.
    replace (Z.pred L) with (L - 1) in Hlo by lia.
    replace (t - - L) with (t + L) by lia.
    destruct (pow2_split t L Ht ltac:(lia)) as (HTL & HT & HLp).
    destruct (pow2_split (L - 1) 1 ltac:(lia) ltac:(lia)) as (HL1 & HLm & _).
    replace (L - 1 + 1) with L in HL1 by lia. change (2 ^ 1) with 2 in HL1.
    destruct (pow2_split t 1 Ht ltac:(lia)) as (HT1 & _ & _).
    change (2 ^ 1) with 2 in HT1. rewrite HT1, HTL, HL1.
    rewrite HL1 in Hhi.
    set (T := 2 ^ t) in *. set (M := 2 ^ (L - 1)) in *.
    split; nia.
Qed.

Lemma scale2_nonpos (x : Q) (e : Z) :
  e <= 0 -> (scale2 x e == x / inject_Z (2 ^ (- e)))%Q.
Proof.
  intros He. unfold scale2. destruct (0 <=? e) eqn:H0; [|reflexivity].
  apply Z.leb_le in H0. assert (e = 0) by lia. subst e. cbn.
  unfold Qdiv. reflexivity.
Qed.

Lemma scale2_nonneg (x : Q) (e : Z) :
  0 <= e -> scale2 x e = (x * inject_Z (2 ^ e))%Q.
Proof.
  intros He. unfold scale2. apply Z.leb_le in He. now rewrite He.
Qed.

Lemma Qfloor_div_Z (a b : Z) : 0 < b -> Qfloor (inject_Z a / inject_Z b) = a / b.
Proof.
  intros Hb. destruct b as [|p|p]; try lia.
  rewrite <- Qmake_Qdiv. reflexivity.
Qed.

Lemma inject_Z_pow2_nonzero (s : Z) : 0 <= s -> ~ (inject_Z (2 ^ s) == 0)%Q.
Proof.
  intros Hs H. unfold Qeq in H. cbn in H.
  pose proof (Z.pow_pos_nonneg 2 s ltac:(lia) Hs). lia.
Qed.

(** Integers of magnitude below [2^53] are doubles. *)
Lemma round64_inject_Z (z : Z) :
  Z.abs z < 2 ^ 53 -> (round64 (inject_Z z) == inject_Z z)%Q.
Proof.
  intros Hz. unfold round64.
  destruct (Qeq_bool (inject_Z z) 0) eqn:H0.
  - apply Qeq_bool_iff in H0. now rewrite H0.
  - apply Qeq_bool_neq in H0.
    assert (Hz0 : z <> 0) by (intros ->; apply H0; reflexivity).
    assert (HE : ilog2 (Qabs (inject_Z z)) = Z.log2 (Z.abs z)).
    { unfold ilog2. change (Qabs (inject_Z z)) with (inject_Z (Z.abs z)).
      replace (Qle_bool 1 (inject_Z (Z.abs z))) with true.
      - now rewrite Qfloor_Z.
      - symmetry. apply Qle_bool_iff. unfold Qle; cbn. lia. }
    rewrite HE.
    assert (Hlog : 0 <= Z.log2 (Z.abs z) < 53).
    { split; [apply Z.log2_nonneg|]. apply Z.log2_lt_pow2; lia. }
    set (E := Z.log2 (Z.abs z)) in *.
    replace (Z.max (E - 52) (-1074)) with (E - 52) by lia.
    rewrite (scale2_nonneg _ (- (E - 52))) by lia.
    rewrite <- inject_Z_mult, rne_inject_Z.
    rewrite scale2_nonpos by lia.
    rewrite inject_Z_mult. apply Qdiv_mult_l.
    apply inject_Z_pow2_nonzero. lia.
Qed.

Lemma ilog2_bounds (x : Q) :
  (0 < x)%Q -> Qnum x < 2 ^ 53 -> Zpos (Qden x) < 2 ^ 53 -> -53 <= ilog2 x <= 52.
Proof.
  intros Hx Hn Hd.
  assert (Hn0 : 0 < Qnum x) by (unfold Qlt in Hx; cbn in Hx; lia).
  destruct (Z_lt_le_dec (ilog2 x) 0) as [Hneg|Hpos].
  - split; [|lia].
    pose proof (ilog2_spec x 0 Hx ltac:(lia) ltac:(lia)) as [_ H].
    cbn [Z.add] in H. change (2 ^ (0 + 1)) with 2 in H.
    destruct (Z_lt_le_dec (ilog2 x) (-53)) as [Hs|Hs]; [exfalso|exact Hs].
    assert (2 ^ 54 <= 2 ^ (0 - ilog2 x)) by (apply Z.pow_le_mono_r; lia).
    assert (2 ^ 54 = 2 * 2 ^ 53) by reflexivity. nia.
  - split; [lia|].
    pose proof (ilog2_spec x (ilog2 x) Hx Hpos ltac:(lia)) as [H _].
    rewrite Z.sub_diag in H. change (2 ^ 0) with 1 in H.
    destruct (Z_lt_le_dec 52 (ilog2 x)) as [Hs|Hs]; [exfalso|exact Hs].
    assert (2 ^ 53 <= 2 ^ ilog2 x) by (apply Z.pow_le_mono_r; lia).
    nia.
Qed.

(** Dividing two integers below [2^53] in binary64 and truncating gives
    the integer quotient. *)
Lemma round64_div_trunc (x : Q) (n d : Z) :
  0 < n < 2 ^ 53 -> 0 < d < 2 ^ 53 ->
  (x == inject_Z n / inject_Z d)%Q ->
  int_of_float (round64 x) = n / d.
Proof.
  intros Hn Hd Hx.
  destruct d as [|p|p]; try lia.
  rewrite <- Qmake_Qdiv in Hx.
  assert (Hr : (round64 x == round64 (n # p))%Q) by now rewrite Hx.
  clear Hx.
  assert (Hpos : (0 < n # p)%Q) by (unfold Qlt; cbn; lia).
  pose proof (ilog2_bounds (n # p) Hpos ltac:(cbn; lia) ltac:(cbn; lia)) as HE.
  pose proof (ilog2_spec (n # p) 52 Hpos ltac:(lia) ltac:(lia)) as Hspec.
  cbn [Qnum Qden] in Hspec.
  unfold round64 in Hr at 2.
  replace (Qeq_bool (n # p) 0) with false in Hr.
  2:{ symmetry. apply not_true_is_false. intros H. apply Qeq_bool_iff in H.
      unfold Qeq in H; cbn in H. lia. }
  assert (Habs : Qabs (n # p) = (n # p)) by (cbn; f_equal; lia).
  rewrite Habs in Hr.
  set (E := ilog2 (n # p)) in *.
  replace (Z.max (E - 52) (-1074)) with (E - 52) in Hr by lia.
  replace (- (E - 52)) with (52 - E) in Hr by lia.
  rewrite (scale2_nonneg _ (52 - E)) in Hr by lia.
  apply (fun H => Qeq_trans _ _ _ H (scale2_nonpos _ (E - 52) ltac:(lia))) in Hr.
  replace (- (E - 52)) with (52 - E) in Hr by lia.
  set (s := 52 - E) in *.
  set (m := rne ((n # p) * inject_Z (2 ^ s))) in *.
  pose proof (Z.pow_pos_nonneg 2 s ltac:(lia) ltac:(lia)) as Hs.
  pose proof (Z.div_mod n (Zpos p) ltac:(lia)) as Hdm.
  pose proof (Z.mod_pos_bound n (Zpos p) ltac:(lia)) as Hb.
  assert (Hlo : n / Zpos p * 2 ^ s <= m).
  { apply rne_lower. unfold Qle; cbn. nia. }
  assert (Hhi : m < (n / Zpos p + 1) * 2 ^ s).
  { pose proof (rne_upper ((n # p) * inject_Z (2 ^ s))) as Hu.
    fold m in Hu. cbn [Qnum Qden Qmult inject_Z] in Hu.
    rewrite Pos.mul_1_r in Hu.
    change (2 ^ (52 + 1)) with (2 * 2 ^ 52) in Hspec.
    assert (Hps : Zpos p < 2 * 2 ^ s) by nia.
    nia. }
  assert (Hm0 : 0 <= m).
  { pose proof (Z.div_pos n (Zpos p) ltac:(lia) ltac:(lia)).
    assert (0 <= n / Zpos p * 2 ^ s) by (apply Z.mul_nonneg_nonneg; lia).
    lia. }
  assert (Hq : (0 <= round64 x)%Q).
  { rewrite Hr. apply Qle_shift_div_l.
    - unfold Qlt; cbn [Qnum Qden inject_Z]; lia.
    - unfold Qle; cbn [Qnum Qden inject_Z Qmult]; lia. }
  rewrite (int_of_float_nonneg _ Hq), (Qfloor_comp _ _ Hr).
  rewrite Qfloor_div_Z by lia.
  symmetry. apply Z.div_unique with (r := m - n / Zpos p * 2 ^ s); lia.
Qed.

(** On the range where doubles are exact the division of [can_build] is
    the floor of the quotient. *)
Lemma int_float_div_exact (stock q : Z) :
  0 <= stock < 2 ^ 53 -> 0 < q < 2 ^ 53 ->
  int_float_div stock q = Ok (stock / q).
Proof.
  intros Hs Hq. unfold int_float_div, float_of_int.
  pose proof (round64_inject_Z stock ltac:(lia)) as Ha.
  pose proof (round64_inject_Z q ltac:(lia)) as Hb.
  assert (Hbig : 2 ^ 53 < 2 ^ 1024) by (apply Z.pow_lt_mono_r; lia).
  destruct (Qle_bool _ (Qabs (round64 (inject_Z stock)))) eqn:Ho1.
  { exfalso. apply Qle_bool_iff in Ho1. rewrite Ha in Ho1.
    unfold Qle in Ho1; cbn in Ho1. lia. }
  cbn [bind].
  destruct (Qle_bool _ (Qabs (round64 (inject_Z q)))) eqn:Ho2.
  { exfalso. apply Qle_bool_iff in Ho2. rewrite Hb in Ho2.
    unfold Qle in Ho2; cbn in Ho2. lia. }
  cbn [bind].
  replace (Qeq_bool (round64 (inject_Z q)) 0) with false.
  2:{ symmetry. apply not_true_is_false. intros H. apply Qeq_bool_iff in H.
      rewrite Hb in H. unfold Qeq in H; cbn in H. lia. }
  f_equal.
  assert (Ha' : (round64 (1 * round64 (inject_Z stock)) == inject_Z stock)%Q).
  { rewrite Qmult_1_l, Ha. exact Ha. }
  destruct (Z.eq_dec stock 0) as [->|Hne].
  - assert (Hz : (round64 (round64 (1 * round64 (inject_Z 0)) / round64 (inject_Z q)) == 0)%Q).
    { rewrite Ha'. unfold Qdiv. rewrite Qmult_0_l. reflexivity. }
    rewrite int_of_float_nonneg by (rewrite Hz; apply Qle_refl).
    rewrite (Qfloor_comp _ _ Hz). reflexivity.
  - apply round64_div_trunc; [lia|lia|].
    rewrite Ha', Hb. reflexivity.
Qed.

(** ** Loops that may raise *)

Lemma for_each_raises {A S : Type} (body : S -> A -> result S) (x : A) (l : list A) :
  In x l -> (forall s, exists e, body s x = Err e) ->
  forall s, exists e, for_each l body s = Err e.
Proof.
  intros Hin Hx. induction l as [|y l IH]; [contradiction|].
  intros s. cbn [for_each]. destruct Hin as [->|Hin].
  - destruct (Hx s) as [e He]. rewrite He. now exists e.
  - destruct (body s y) as [s'|e]; cbn [bind].
    + now apply IH.
    + now exists e.
Qed.

Lemma for_each_raised {A S : Type} (body : S -> A -> result S) (l : list A) :
  forall s e, for_each l body s = Err e ->
  exists x s', In x l /\ body s' x = Err e.
Proof.
  induction l as [|y l IH]; intros s e H; cbn [for_each] in H; [discriminate|].
  destruct (body s y) as [s'|e'] eqn:Hy; cbn [bind] in H.
  - destruct (IH _ _ H) as (x & s'' & Hin & Hx).
    exists x, s''. split; [now right | exact Hx].
  - injection H as <-. exists y, s. split; [now left | exact Hy].
Qed.

(** ** Buildable quantity *)

Lemma has_bom_false (db : Database) (self : Z) :
  has_bom db self = false <-> part_bom_items db self = [].
Proof.
  unfold has_bom, bom_count, count.
  destruct (part_bom_items db self) as [|item items]; cbn [List.length].
  - split; reflexivity.
  - split; [|discriminate]. intros H. rewrite Z.gtb_ltb in H.
    apply Z.ltb_ge in H. lia.
Qed.





Section ExactLines.

Variable db : Database.

Lemma can_build_step_exact (total : option Z) (item : BomItem.t) :
  exact_line db item ->
  can_build_step db total item
  = Ok (Some match total with
             | None => units_covered db item
             | Some t => Z.min t (units_covered db item)
             end).
Proof.
  intros [Hq Hs]. unfold can_build_step, units_covered, exact_bound in *.
  pose proof (available_stock_nonneg db (BomItem.sub_part item)) as H0.
  rewrite int_float_div_exact by lia. cbn [bind].
  destruct total as [t|]; [|reflexivity].
  destruct (Z.ltb_spec (available_stock db (BomItem.sub_part item)
                        / BomItem.quantity item) t);
    do 2 f_equal; lia.
Qed.

Lemma can_build_loop_exact (items : list BomItem.t) (t : Z) :
  Forall (exact_line db) items ->
  for_each items (can_build_step db) (Some t)
  = Ok (Some (fold_left Z.min (map (units_covered db) items) t)).
Proof.
  intros H. revert t. induction H as [|item items Hi _ IH]; intros t.
  - reflexivity.
  - cbn [for_each map fold_left].
    rewrite (can_build_step_exact (Some t) item Hi). cbn [bind]. apply IH.
Qed.

Lemma units_covered_nonneg (item : BomItem.t) :
  exact_line db item -> 0 <= units_covered db item.
Proof.
  intros [Hq _]. unfold units_covered.
  pose proof (available_stock_nonneg db (BomItem.sub_part item)) as H0.
  apply Z.div_pos; lia.
Qed.

Lemma can_build_exact (self : Z) (item : BomItem.t) (items : list BomItem.t) :
  part_bom_items db self = item :: items ->
  Forall (exact_line db) (item :: items) ->
  can_build db self
  = Ok (Z.max (minimum (units_covered db item) (map (units_covered db) items)) 0).
Proof.
  intros Hbom Hex. unfold can_build.
  destruct (has_bom db self) eqn:Hhas.
  2:{ apply has_bom_false in Hhas. congruence. }
  cbn [negb]. rewrite Hbom. cbn [for_each].
  inversion Hex as [|? ? Hi His]; subst.
  rewrite (can_build_step_exact None item Hi). cbn [bind].
  rewrite (can_build_loop_exact items _ His). reflexivity.
Qed.

End ExactLines.

Lemma int_float_div_zero (stock : Z) : exists e, int_float_div stock 0 = Err e.
Proof.
  unfold int_float_div. destruct (float_of_int stock) as [a|e]; cbn [bind].
  - eexists. reflexivity.
  - now exists e.
Qed.

(** A BOM line of quantity zero leaves [can_build] without a result. *)
Lemma can_build_zero_line (db : Database) (self : Z) (item : BomItem.t) :
  In item (part_bom_items db self) -> BomItem.quantity item = 0 ->
  exists e, can_build db self = Err e.
Proof.
  intros Hin Hq. unfold can_build.
  destruct (has_bom db self) eqn:Hhas.
  2:{ apply has_bom_false in Hhas. rewrite Hhas in Hin. contradiction. }
  cbn [negb].
  destruct (for_each_raises (can_build_step db) item _ Hin) with (s := @None Z)
    as [e He].
  - intros s. unfold can_build_step. rewrite Hq.
    destruct (int_float_div_zero (available_stock db (BomItem.sub_part item)))
      as [e He].
    rewrite He. now exists e.
  - rewrite He. now exists e.
Qed.



(** C8: on a part whose BOM holds a line of quantity zero, [can_build]
    raises the division error instead of skipping the line. *)
Theorem can_build_zero_quantity_raises :
  In (BomItem.mk 1 4 0 "optional") (part_bom_items factory_zero 1)
  /\ can_build factory_zero 1 = Err (ZeroDivisionError "float division by zero").
Proof. split; [cbn; tauto | vm_compute; reflexivity]. Qed.

(** ** BOM validation *)

Lemma string_app_assoc (a b c : string) :
  ((a ++ b) ++ c = a ++ b ++ c)%string.
Proof.
  induction a as [|ch a IH]; cbn.
  - reflexivity.
  - now rewrite IH.
Qed.

Lemma occurs_in_app (sub s pre post : string) :
  occurs_in sub s -> occurs_in sub (pre ++ s ++ post).
Proof.
  intros (p & q & ->). exists (pre ++ p)%string, (q ++ post)%string.
  now rewrite !string_app_assoc.
Qed.

Lemma name_in_Part_str (p : Part.t) : occurs_in (Part.name p) (Part_str p).
Proof. exists "", (" - " ++ Part.description p)%string. reflexivity. Qed.

Lemma recursive_message_names (p1 p2 : Part.t) :
  occurs_in (Part.name p1) (recursive_message p1 p2)
  /\ occurs_in (Part.name p2) (recursive_message p1 p2).
Proof.
  unfold recursive_message. split.
  - apply (occurs_in_app _ (Part_str p1) "Part '"), name_in_Part_str.
  - rewrite <- (string_app_assoc (Part_str p1)).
    rewrite <- (string_app_assoc "Part '").
    apply (occurs_in_app _ (Part_str p2)), name_in_Part_str.
Qed.

(** The loop of [clean] raises as soon as one line of the sub-part's BOM
    lists the part, and passes when none does. *)
Lemma clean_loop_raises (pk : Z) (e : exception) (l : list BomItem.t) :
  (exists item, In item l /\ BomItem.sub_part item = pk) ->
  for_each l (fun _ item => if pk =? BomItem.sub_part item then Err e else Ok tt) tt
  = Err e.
Proof.
  intros (item & Hin & Hsub). induction l as [|x l IH]; [contradiction|].
  cbn [for_each]. destruct (Z.eqb_spec pk (BomItem.sub_part x)) as [_|Hne].
  - reflexivity.
  - cbn [bind]. apply IH. destruct Hin as [->|Hin]; [congruence | exact Hin].
Qed.

Lemma clean_loop_passes (pk : Z) (e : exception) (l : list BomItem.t) :
  (forall item, In item l -> BomItem.sub_part item <> pk) ->
  for_each l (fun _ item => if pk =? BomItem.sub_part item then Err e else Ok tt) tt
  = Ok tt.
Proof.
  intros H. induction l as [|x l IH]; [reflexivity|].
  cbn [for_each]. destruct (Z.eqb_spec pk (BomItem.sub_part x)) as [Heq|_].
  - exfalso. apply (H x); [now left | congruence].
  - cbn [bind]. apply IH. intros item Hin. apply H. now right.
Qed.

Lemma clean_recursive (db : Database) (self : BomItemInstance) :
  Part.pk (part self) <> Part.pk (sub_part self) ->
  uses db (Part.pk (sub_part self)) (Part.pk (part self)) ->
  clean db self
  = Err (ValidationError [recursive_message (part self) (sub_part self)]).
Proof.
  intros Hne (item & Hin & Hp & Hs). unfold clean.
  destruct (Z.eqb_spec (Part.pk (part self)) (Part.pk (sub_part self))); [contradiction|].
  apply clean_loop_raises. exists item. split; [|exact Hs].
  unfold part_bom_items. apply filter_In. split; [exact Hin|].
  now apply Z.eqb_eq.
Qed.

(** An error of [clean] is among the errors of [full_clean]. *)
Lemma full_clean_collects (db : Database) (self : BomItemInstance) (msg : string) :
  clean db self = Err (ValidationError [msg]) ->
  exists errors, full_clean db self = Err (ValidationError errors) /\ In msg errors.
Proof.
  intros Hclean. unfold full_clean. rewrite Hclean.
  destruct (clean_fields db self) as [[[e1 e2] e3] e4].
  set (e5 := match e1, e2 with [], [] => validate_unique db self | _, _ => [] end).
  assert (Hin : In msg (e1 ++ e2 ++ e3 ++ e4 ++ [msg] ++ e5)).
  { rewrite !in_app_iff. cbn. tauto. }
  destruct (e1 ++ e2 ++ e3 ++ e4 ++ [msg] ++ e5) as [|x errors] eqn:E.
  - contradiction.
  - exists (x :: errors). split; [reflexivity | exact Hin].
Qed.

Lemma add_edge_rejected (db : Database) (self : BomItemInstance) (e : exception) :
  full_clean db self = Err e -> add_edge db self = (db, Err e).
Proof. intros H. unfold add_edge. now rewrite H. Qed.

(** C3: once [A] lists [B], validating the edge from [B] to [A] fails with
    the recursive-BOM message, which names both parts, and the edge insertion
    leaves the table as it was. *)
Theorem recursive_bom_rejected (db : Database) (A B : Part.t)
        (quantity : Z) (note : string) :
  Part.pk A <> Part.pk B ->
  uses db (Part.pk A) (Part.pk B) ->
  let self := mkBomItemInstance B A quantity note in
  clean db self = Err (ValidationError [recursive_message B A])
  /\ (exists errors,
         full_clean db self = Err (ValidationError errors)
         /\ In (recursive_message B A) errors
         /\ add_edge db self = (db, Err (ValidationError errors)))
  /\ occurs_in (Part.name A) (recursive_message B A)
  /\ occurs_in (Part.name B) (recursive_message B A).
Proof.
  intros Hne Huses self.
  assert (Hclean : clean db self = Err (ValidationError [recursive_message B A])).
  { apply (clean_recursive db self); cbn; [congruence | exact Huses]. }
  split; [exact Hclean|]. split.
  - destruct (full_clean_collects db self _ Hclean) as (errors & Hfull & Hin).
    exists errors. repeat split; try assumption.
    now apply add_edge_rejected.
  - destruct (recursive_message_names B A). tauto.
Qed.

Lemma recursive_bom_rejected_witness :
  clean chain_db (mkBomItemInstance (new_part 2 "B" "middle" true)
                                    (new_part 1 "A" "top" true) 1 "")
  = Err (ValidationError
           ["Part 'B - middle' is  used in BOM for 'A - top' (recursive)"]).
Proof.
  apply (recursive_bom_rejected chain_db (new_part 1 "A" "top" true)
                                (new_part 2 "B" "middle" true) 1 "").
  - cbn. lia.
  - exists (BomItem.mk 1 2 1 ""). cbn. tauto.
Defined.

(** C4: the check of [clean] looks one level down only.  With [A] listing
    [B] and [B] listing [C], the edge from [C] to [A] passes [clean] as long
    as [A] does not list [C] itself, and saving it closes a cycle through
    the three parts. *)
Theorem three_level_cycle_accepted (db : Database) (A B C : Part.t)
        (quantity : Z) (note : string) :
  Part.pk A <> Part.pk C ->
  uses db (Part.pk A) (Part.pk B) ->
  uses db (Part.pk B) (Part.pk C) ->
  ~ uses db (Part.pk A) (Part.pk C) ->
  let self := mkBomItemInstance C A quantity note in
  clean db self = Ok tt
  /\ clos_trans Z (uses (save_bom_item db self)) (Part.pk A) (Part.pk A).
Proof.
  intros Hne HAB HBC HAC self. split.
  - unfold clean. cbn [part sub_part self].
    destruct (Z.eqb_spec (Part.pk C) (Part.pk A)); [congruence|].
    apply clean_loop_passes. intros item Hin Hsub. apply HAC.
    unfold part_bom_items in Hin. apply filter_In in Hin as [Hin Hp].
    apply Z.eqb_eq in Hp. now exists item.
  - assert (Hkeep : forall a b, uses db a b -> uses (save_bom_item db self) a b).
    { intros a b (item & Hin & Hp & Hs). exists item. cbn.
      rewrite in_app_iff. tauto. }
    apply t_trans with (Part.pk B); [apply t_step; auto|].
    apply t_trans with (Part.pk C); [apply t_step; auto|].
    apply t_step. eexists. cbn. rewrite in_app_iff. split.
    + right. left. reflexivity.
    + cbn. tauto.
Qed.

Lemma three_level_cycle_accepted_witness :
  let self := mkBomItemInstance (new_part 3 "C" "bottom" true)
                                (new_part 1 "A" "top" true) 1 "" in
  clean chain_db self = Ok tt
  /\ clos_trans Z (uses (save_bom_item chain_db self)) 1 1
  /\ add_edge chain_db self = (save_bom_item chain_db self, Ok tt).
Proof.
  intros self.
  destruct (three_level_cycle_accepted chain_db (new_part 1 "A" "top" true)
              (new_part 2 "B" "middle" true) (new_part 3 "C" "bottom" true) 1 "")
    as [Hclean Hcycle].
  - cbn. lia.
  - exists (BomItem.mk 1 2 1 ""). cbn. tauto.
  - exists (BomItem.mk 2 3 1 ""). cbn. tauto.
  - intros (item & Hin & Hp & Hs). cbn in Hin.
    destruct Hin as [<-|[<-|[]]]; cbn in Hp, Hs; lia.
  - split; [exact Hclean|]. split; [exact Hcycle|]. reflexivity.
Defined.

Lemma unique_row {A : Type} (key : A -> Z) (l : list A) (a b : A) :
  NoDup (map key l) -> In a l -> In b l -> key a = key b -> a = b.
Proof.
  induction l as [|x l IH]; cbn; intros Hnd Ha Hb Hk; [contradiction|].
  inversion Hnd as [|? ? Hx Hnd']; subst.
  destruct Ha as [->|Ha], Hb as [->|Hb]; auto.
  - exfalso. apply Hx. rewrite Hk. now apply in_map.
  - exfalso. apply Hx. rewrite <- Hk. now apply in_map.
Qed.

Lemma ForeignKey_validate_rejects (f : ForeignKey) (db : Database) (value : Z) :
  (forall p, In p (parts db) -> Part.pk p = value -> limit_choices_to f p = false) ->
  ForeignKey_validate f db value <> [].
Proof.
  intros H. unfold ForeignKey_validate.
  destruct (existsb _ (parts db)) eqn:E; [|discriminate].
  apply existsb_exists in E as (p & Hin & Hp).
  apply andb_prop in Hp as [Hpk Hlim]. apply Z.eqb_eq in Hpk.
  rewrite (H p Hin Hpk) in Hlim. discriminate.
Qed.

Lemma ForeignKey_validate_accepts (f : ForeignKey) (db : Database) (p : Part.t) :
  In p (parts db) -> limit_choices_to f p = true ->
  ForeignKey_validate f db (Part.pk p) = [].
Proof.
  intros Hin Hlim. unfold ForeignKey_validate.
  replace (existsb _ (parts db)) with true; [reflexivity|].
  symmetry. apply existsb_exists. exists p. split; [exact Hin|].
  now rewrite Z.eqb_refl, Hlim.
Qed.

(** A field error alone makes [full_clean] raise. *)
Lemma full_clean_field_error (db : Database) (self : BomItemInstance) :
  ForeignKey_validate part_field db (Part.pk (part self)) <> []
  \/ ForeignKey_validate sub_part_field db (Part.pk (sub_part self)) <> [] ->
  exists errors, full_clean db self = Err (ValidationError errors).
Proof.
  intros H. unfold full_clean, clean_fields.
  set (e1 := ForeignKey_validate part_field _ _) in *.
  set (e2 := ForeignKey_validate sub_part_field _ _) in *.
  match goal with |- context [match ?l with [] => Ok tt | _ => _ end] =>
    assert (Hne : l <> []); [|destruct l as [|x errors]; [congruence|eauto]]
  end.
  intros E. apply app_eq_nil in E as [E1 E]. apply app_eq_nil in E as [E2 _].
  tauto.
Qed.

(** C9: validation of a new edge rejects it when the parent part is not
    buildable or the sub-part is not consumable, and the edge insertion then
    stores nothing. *)
Theorem role_flags_enforced (db : Database) (self : BomItemInstance) :
  primary_keys_unique db ->
  (In (part self) (parts db) /\ Part.buildable (part self) = false)
  \/ (In (sub_part self) (parts db) /\ Part.consumable (sub_part self) = false) ->
  exists errors,
    full_clean db self = Err (ValidationError errors)
    /\ add_edge db self = (db, Err (ValidationError errors)).
Proof.
  intros [Hunique _] Hflag.
  destruct (full_clean_field_error db self) as [errors Herr].
  - destruct Hflag as [[Hin Hb]|[Hin Hc]]; [left|right];
      apply ForeignKey_validate_rejects; intros p Hp Hpk.
    + rewrite (unique_row Part.pk (parts db) p (part self) Hunique Hp Hin Hpk).
      exact Hb.
    + rewrite (unique_row Part.pk (parts db) p (sub_part self) Hunique Hp Hin Hpk).
      exact Hc.
  - exists errors. split; [exact Herr | now apply add_edge_rejected].
Qed.

Lemma role_flags_enforced_witness :
  primary_keys_unique factory
  /\ Part.buildable Screw = false
  /\ exists errors,
       full_clean factory (mkBomItemInstance Screw Bracket 1 "")
       = Err (ValidationError errors)
       /\ add_edge factory (mkBomItemInstance Screw Bracket 1 "")
          = (factory, Err (ValidationError errors)).
Proof.
  assert (Hu : primary_keys_unique factory).
  { split; cbn; repeat constructor; cbn; intuition lia. }
  split; [exact Hu|]. split; [reflexivity|].
  apply (role_flags_enforced factory (mkBomItemInstance Screw Bracket 1 "") Hu).
  left. cbn. tauto.
Defined.

(** ** Category deletion *)

Section SaveLoop.

Context {A : Type}.
Variable key : A -> Z.
Variable f : A -> A.
Hypothesis key_f : forall a, key (f a) = key a.

Lemma save_loop (rows l : list A) :
NoDup (map key rows) -> incl l rows ->
fold_left (fun rows x => save_row key rows (f x)) l rows
= map (fun r => if key_in key l r then f r else r) rows.
Proof.
intros Hnd. induction l as [|x l IH] using rev_ind; intros Hincl.
- cbn. symmetry. apply map_id.
- rewrite fold_left_app. cbn [fold_left].
  rewrite IH by (intros y Hy; apply Hincl, in_or_app; now left).
  unfold save_row. rewrite map_map. apply map_ext_in. intros r Hr.
  assert (Hx : In x rows) by (apply Hincl, in_or_app; right; now left).
  assert (Hk : key (if key_in key l r then f r else r) = key r)
    by (destruct (key_in key l r); [apply key_f | reflexivity]).
  rewrite Hk, key_f. unfold key_in at 2. rewrite existsb_app. cbn [existsb].
  fold (key_in key l r).
  rewrite orb_false_r, (Z.eqb_sym (key x)).
  destruct (Z.eqb_spec (key r) (key x)) as [Heq|Hne].
  + rewrite (unique_row key rows r x Hnd Hr Hx Heq), orb_true_r. reflexivity.
  + rewrite orb_false_r. reflexivity.
Qed.

Lemma save_loop_filter (rows : list A) (owned : A -> bool) :
NoDup (map key rows) ->
fold_left (fun rows x => save_row key rows (f x)) (filter owned rows) rows
= map (fun r => if owned r then f r else r) rows.
Proof.
intros Hnd. rewrite save_loop by (exact Hnd || apply incl_filter).
apply map_ext_in. intros r Hr.
destruct (key_in key (filter owned rows) r) eqn:Hs, (owned r) eqn:Ho;
  try reflexivity.
- apply existsb_exists in Hs as (x & Hx & Hk).
  apply filter_In in Hx as [Hx Hox]. apply Z.eqb_eq in Hk.
  rewrite (unique_row key rows x r Hnd Hx Hr Hk) in Hox. congruence.
- assert (key_in key (filter owned rows) r = true); [|congruence].
  apply existsb_exists. exists r. rewrite filter_In, Z.eqb_refl. tauto.
Qed.

End SaveLoop.

Lemma save_part_loop (l : list Part.t) (R : option Z) (db : Database) :
  let db' := fold_left (fun db part => save_part db (Part.set_category part R)) l db in
  parts db'
  = fold_left (fun rows x => save_row Part.pk rows (Part.set_category x R))
              l (parts db)
  /\ categories db' = categories db.
Proof.
  revert db. induction l as [|x l IH]; intros db; cbn [fold_left].
  - split; reflexivity.
  - destruct (IH (save_part db (Part.set_category x R))) as [H1 H2].
    split; [exact H1 | exact H2].
Qed.

Lemma save_category_loop (l : list PartCategory.t) (R : option Z) (db : Database) :
  let db' := fold_left (fun db child => save_category db (set_parent child R)) l db in
  categories db'
  = fold_left (fun rows x => save_row PartCategory.pk rows (set_parent x R))
              l (categories db)
  /\ parts db' = parts db.
Proof.
  revert db. induction l as [|x l IH]; intros db; cbn [fold_left].
  - split; reflexivity.
  - destruct (IH (save_category db (set_parent x R))) as [H1 H2].
    split; [exact H1 | exact H2].
Qed.

Lemma option_Z_eqb_eq (a b : option Z) : option_Z_eqb a b = true <-> a = b.
Proof.
  destruct a as [x|], b as [y|]; cbn; try (split; congruence).
  rewrite Z.eqb_eq. split; congruence.
Qed.

(** What the receiver leaves in the two tables. *)
Lemma before_delete_tables (db : Database) (instance : PartCategory.t) :
  primary_keys_unique db ->
  let db' := before_delete_part_category db instance in
  parts db'
  = map (fun p => if option_Z_eqb (Part.category p) (Some (PartCategory.pk instance))
                  then Part.set_category p (PartCategory.parent instance) else p)
        (parts db)
  /\ categories db'
     = map (fun c => if option_Z_eqb (PartCategory.parent c)
                                     (Some (PartCategory.pk instance))
                     then set_parent c (PartCategory.parent instance) else c)
           (categories db).
Proof.
  intros [Hparts Hcats]. unfold before_delete_part_category.
  set (R := PartCategory.parent instance).
  set (db1 := fold_left _ (category_parts db _) db).
  destruct (save_part_loop (category_parts db (PartCategory.pk instance)) R db)
    as [Hp1 Hc1]. fold db1 in Hp1, Hc1.
  destruct (save_category_loop (category_children db1 (PartCategory.pk instance)) R db1)
    as [Hc2 Hp2].
  cbv zeta. split.
  - rewrite Hp2, Hp1. unfold category_parts.
    apply (save_loop_filter Part.pk (fun p => Part.set_category p R)); auto.
  - rewrite Hc2. unfold category_children. rewrite Hc1.
    apply (save_loop_filter PartCategory.pk (fun c => set_parent c R)); auto.
Qed.

(** C5: the pre-delete step moves every part of the category and every child
    category to the category's parent, so none of them refers to the deleted
    category afterwards. *)
Theorem category_delete_reparents (db : Database) (instance : PartCategory.t) :
  primary_keys_unique db ->
  PartCategory.parent instance <> Some (PartCategory.pk instance) ->
  let db' := before_delete_part_category db instance in
  let R := PartCategory.parent instance in
  (forall X, In X (parts db) ->
             Part.category X = Some (PartCategory.pk instance) ->
             In (Part.set_category X R) (parts db'))
  /\ (forall D, In D (categories db) ->
                PartCategory.parent D = Some (PartCategory.pk instance) ->
                In (set_parent D R) (categories db'))
  /\ (forall X, In X (parts db') ->
                Part.category X <> Some (PartCategory.pk instance))
  /\ (forall D, In D (categories db') ->
                PartCategory.parent D <> Some (PartCategory.pk instance))
  /\ (forall X, In X (parts db) ->
                Part.category X <> Some (PartCategory.pk instance) ->
                In X (parts db'))
  /\ (forall D, In D (categories db) ->
                PartCategory.parent D <> Some (PartCategory.pk instance) ->
                In D (categories db')).
Proof.
  intros Hu Hself db' R.
  destruct (before_delete_tables db instance Hu) as [Hp Hc].
  fold db' in Hp, Hc. fold R in Hp, Hc.
  repeat split.
  - intros X Hin Hcat. rewrite Hp. apply in_map_iff. exists X.
    apply option_Z_eqb_eq in Hcat. now rewrite Hcat.
  - intros D Hin Hpar. rewrite Hc. apply in_map_iff. exists D.
    apply option_Z_eqb_eq in Hpar. now rewrite Hpar.
  - intros X Hin. rewrite Hp in Hin. apply in_map_iff in Hin as (p & <- & _).
    destruct (option_Z_eqb (Part.category p) _) eqn:E.
    + exact Hself.
    + intros H. apply option_Z_eqb_eq in H. congruence.
  - intros D Hin. rewrite Hc in Hin. apply in_map_iff in Hin as (c & <- & _).
    destruct (option_Z_eqb (PartCategory.parent c) _) eqn:E.
    + exact Hself.
    + intros H. apply option_Z_eqb_eq in H. congruence.
  - intros X Hin Hcat. rewrite Hp. apply in_map_iff. exists X.
    destruct (option_Z_eqb (Part.category X) _) eqn:E; [|auto].
    apply option_Z_eqb_eq in E. contradiction.
  - intros D Hin Hpar. rewrite Hc. apply in_map_iff. exists D.
    destruct (option_Z_eqb (PartCategory.parent D) _) eqn:E; [|auto].
    apply option_Z_eqb_eq in E. contradiction.
Qed.

Lemma category_delete_reparents_witness :
  let Electronics := PartCategory.mk 2 "Electronics" (Some 1) in
  let db' := before_delete_part_category category_db Electronics in
  In (Part.set_category Gadget (Some 1)) (parts db')
  /\ In (PartCategory.mk 3 "Passives" (Some 1)) (categories db')
  /\ forall X, In X (parts db') -> Part.category X <> Some 2.
Proof.
  intros Electronics db'.
  destruct (category_delete_reparents category_db Electronics)
    as (Hparts & Hchildren & Hnone & _).
  - split; cbn; repeat constructor; cbn; intuition lia.
  - cbn. discriminate.
  - split; [|split].
    + apply (Hparts (Part.set_category Gadget (Some 2))); [cbn; tauto | reflexivity].
    + apply (Hchildren (PartCategory.mk 3 "Passives" (Some 2)));
        [cbn; tauto | reflexivity].
    + exact Hnone.
Defined.

(** ** Part count of a category *)

Lemma child_of_children (db : Database) (c : Z) (row : PartCategory.t) :
  In row (category_children db c)
  <-> In row (categories db) /\ PartCategory.parent row = Some c.
Proof.
  unfold category_children. rewrite filter_In, option_Z_eqb_eq. reflexivity.
Qed.

(** The recursion limit is the only way for [partcount] to raise. *)
Lemma partcount_error (limit : nat) (db : Database) :
  forall c e, partcount limit db c = Err e -> e = recursion_error.
Proof.
  induction limit as [|limit IH]; intros c e H; cbn [partcount] in H.
  - now injection H as <-.
  - apply for_each_raised in H as (x & s & _ & Hx).
    destruct (partcount limit db (PartCategory.pk x)) as [n|e'] eqn:E;
      cbn [bind] in Hx; [discriminate|].
    injection Hx as <-. now apply (IH _ _ E).
Qed.

Lemma for_each_ok_mono {A S : Type} (body1 body2 : S -> A -> result S) (l : list A) :
  (forall s x s', body1 s x = Ok s' -> body2 s x = Ok s') ->
  forall s r, for_each l body1 s = Ok r -> for_each l body2 s = Ok r.
Proof.
  intros Hb. induction l as [|x l IH]; intros s r H; cbn [for_each] in *.
  - exact H.
  - destruct (body1 s x) as [s'|e] eqn:E; cbn [bind] in H; [|discriminate].
    rewrite (Hb _ _ _ E). cbn [bind]. now apply IH.
Qed.

(** A count obtained under one recursion limit is obtained under any
    larger one. *)
Lemma partcount_mono (db : Database) (limit limit' : nat) :
  (limit <= limit')%nat ->
  forall c n, partcount limit db c = Ok n -> partcount limit' db c = Ok n.
Proof.
  revert limit'. induction limit as [|limit IH]; intros limit' Hle c n H;
    cbn [partcount] in H; [discriminate|].
  destruct limit' as [|limit']; [lia|]. cbn [partcount].
  revert H. apply for_each_ok_mono. intros s x s' Hx.
  destruct (partcount limit db (PartCategory.pk x)) as [m|e] eqn:E;
    cbn [bind] in Hx; [|discriminate].
  rewrite (IH limit' ltac:(lia) _ _ E). exact Hx.
Qed.

(** The loop of [partcount] adds the counts of the children to the count it
    starts from. *)
Lemma count_loop {A : Type} (g : A -> result Z) (l : list A) :
  forall s r,
    for_each l (fun count x => c <- g x ;; Ok (count + c)) s = Ok r ->
    exists ns, Forall2 (fun x m => g x = Ok m) l ns /\ r = s + sum ns.
Proof.
  induction l as [|x l IH]; intros s r H; cbn [for_each] in H.
  - injection H as <-. exists []. split; [constructor | unfold sum; cbn; lia].
  - destruct (g x) as [m|e] eqn:E; cbn [bind] in H; [|discriminate].
    destruct (IH _ _ H) as (ns & Hns & ->).
    exists (m :: ns). split; [now constructor | rewrite sum_cons; lia].
Qed.

(** Running out of recursion depth exhibits a descending walk as long as
    the limit. *)
Lemma partcount_raises_chain (db : Database) (limit : nat) :
  forall c e, partcount limit db c = Err e ->
  exists l, List.length l = limit /\ chain db (c :: l).
Proof.
  induction limit as [|limit IH]; intros c e H; cbn [partcount] in H.
  - exists []. split; [reflexivity | constructor].
  - apply for_each_raised in H as (x & s & Hin & Hx).
    destruct (partcount limit db (PartCategory.pk x)) as [n|e'] eqn:E;
      cbn [bind] in Hx; [discriminate|].
    destruct (IH _ _ E) as (l & Hlen & Hchain).
    exists (PartCategory.pk x :: l). split; [cbn; lia|].
    constructor; [|exact Hchain].
    apply child_of_children in Hin as [Hin Hpar]. now exists x.
Qed.

Lemma chain_tail (db : Database) (c : Z) (l : list Z) :
  chain db (c :: l) ->
  (l = [] \/ chain db l)
  /\ (forall d, In d l -> clos_trans Z (child_of db) c d)
  /\ incl l (map PartCategory.pk (categories db)).
Proof.
  revert c. induction l as [|d l IH]; intros c H.
  - split; [now left|]. split; [intros d []| intros d []].
  - inversion H as [|? ? ? Hcd Hrest]; subst.
    destruct (IH d Hrest) as (_ & Hreach & Hincl).
    split; [now right|]. split.
    + intros x [<-|Hx]; [now apply t_step|].
      apply t_trans with d; [now apply t_step | now apply Hreach].
    + intros x [<-|Hx]; [|now apply Hincl].
      destruct Hcd as (row & Hin & Hpk & _). rewrite <- Hpk. now apply in_map.
Qed.

Lemma forest_chain_NoDup (db : Database) (l : list Z) :
  forest db -> chain db l -> NoDup l.
Proof.
  intros Hf. induction l as [|c l IH]; intros H; [constructor|].
  destruct (chain_tail db c l H) as ([->|Hl] & Hreach & _).
  - repeat constructor. intros [].
  - constructor; [|now apply IH].
    intros Hin. apply (Hf c). now apply Hreach.
Qed.

(** In a forest [partcount] returns as soon as the recursion limit exceeds
    the number of categories. *)
Lemma partcount_forest_returns (db : Database) (limit : nat) (c : Z) :
  forest db -> (List.length (categories db) < limit)%nat ->
  exists n, partcount limit db c = Ok n.
Proof.
  intros Hf Hlimit.
  destruct (partcount limit db c) as [n|e] eqn:E; [now exists n|].
  exfalso. apply partcount_raises_chain in E as (l & Hlen & Hchain).
  pose proof (forest_chain_NoDup db _ Hf Hchain) as Hnd.
  inversion Hnd as [|? ? _ Hnd']; subst.
  destruct (chain_tail db c l Hchain) as (_ & _ & Hincl).
  pose proof (NoDup_incl_length Hnd' Hincl) as Hle.
  rewrite length_map in Hle. lia.
Qed.

Lemma reaches_cycle_step (db : Database) (c : Z) :
  reaches_cycle db c -> exists d, child_of db c d /\ reaches_cycle db d.
Proof.
  intros (d & Hcd & Hdd).
  apply clos_rt_rt1n in Hcd.
  destruct Hcd as [|y z Hcy Hyz].
  - apply clos_trans_t1n in Hdd.
    inversion Hdd as [y Hy|y z Hy Hyc]; subst.
    + exists c. split; [exact Hy|]. exists c. split; [apply rt_refl | now apply t_step].
    + exists y. split; [exact Hy|]. exists c. split.
      * apply clos_t1n_trans in Hyc. now apply clos_t_clos_rt.
      * apply clos_t1n_trans. exact Hdd.
  - exists y. split; [exact Hcy|]. exists z. split; [|exact Hdd].
    now apply clos_rt1n_rt.
Qed.

Lemma partcount_child_raises (db : Database) (limit : nat) (c d : Z) (e : exception) :
  child_of db c d -> partcount limit db d = Err e ->
  exists e', partcount (S limit) db c = Err e'.
Proof.
  intros (row & Hin & Hpk & Hpar) Hd. cbn [partcount].
  apply for_each_raises with (x := row).
  - apply child_of_children. split; assumption.
  - intros s. rewrite Hpk, Hd. now exists e.
Qed.

(** Below a category that reaches a cycle [partcount] never returns: every
    recursion limit is used up. *)
Lemma partcount_cycle_raises (db : Database) (limit : nat) :
  forall c, reaches_cycle db c -> partcount limit db c = Err recursion_error.
Proof.
  induction limit as [|limit IH]; intros c Hc; [reflexivity|].
  destruct (reaches_cycle_step db c Hc) as (d & Hcd & Hd).
  destruct (partcount_child_raises db limit c d _ Hcd (IH d Hd)) as [e He].
  rewrite He. f_equal. now apply (partcount_error (S limit) db c).
Qed.

(** C6, as the code has it: in a forest [partcount] returns, once the
    recursion limit exceeds the number of categories, the number of parts of
    the category plus the counts of its child categories; below a category
    that reaches a parent/child cycle it has no guard and every recursion
    limit ends in the interpreter's recursion error. *)
Theorem partcount_forest_or_recursion_error (db : Database) (c : Z) :
  (forest db ->
   exists n ns,
     (forall limit, (List.length (categories db) < limit)%nat ->
                    partcount limit db c = Ok n)
     /\ Forall2 (fun child m =>
                   forall limit, (List.length (categories db) < limit)%nat ->
                                 partcount limit db (PartCategory.pk child) = Ok m)
                (category_children db c) ns
     /\ n = count (category_parts db c) + sum ns)
  /\ (reaches_cycle db c ->
      forall limit,
        partcount limit db c = Err (RecursionError "maximum recursion depth exceeded")).
Proof.
  split.
  - intros Hf. set (k := List.length (categories db)).
    destruct (partcount_forest_returns db (S (S k)) c Hf ltac:(lia)) as [n Hn].
    pose proof Hn as Hloop. cbn [partcount] in Hloop.
    apply (count_loop (fun child => partcount (S k) db (PartCategory.pk child)))
      in Hloop as (ns & Hns & Hsum).
    exists n, ns. split; [|split; [|exact Hsum]].
    + intros limit Hlimit.
      destruct (partcount_forest_returns db limit c Hf Hlimit) as [n' Hn'].
      destruct (Nat.le_ge_cases limit (S (S k))) as [Hle|Hle].
      * rewrite (partcount_mono db _ _ Hle _ _ Hn') in Hn. congruence.
      * now apply (partcount_mono db _ _ Hle).
    + revert Hns. apply Forall2_impl. intros child m Hm limit Hlimit.
      apply (partcount_mono db (S k) limit); [fold k in Hlimit; lia | exact Hm].
  - intros Hc limit. now apply partcount_cycle_raises.
Qed.

Lemma category_db_child_larger (c d : Z) : child_of category_db c d -> c < d.
Proof.
  intros (row & Hin & Hpk & Hpar). cbn in Hin.
  repeat (destruct Hin as [<-|Hin]; [cbn in Hpk, Hpar; subst d; try discriminate;
                                     injection Hpar as <-; lia|]).
  contradiction.
Qed.

Lemma category_db_forest : forest category_db.
Proof.
  assert (H : forall c d, clos_trans Z (child_of category_db) c d -> c < d).
  { induction 1 as [c d H|c d e _ IH1 _ IH2].
    - now apply category_db_child_larger.
    - lia. }
  intros c Hc. apply H in Hc. lia.
Qed.

Lemma cyclic_db_reaches_cycle : reaches_cycle cyclic_db 1.
Proof.
  exists 1. split; [apply rt_refl|].
  apply t_trans with 2; apply t_step.
  - exists (PartCategory.mk 2 "Right" (Some 1)). cbn. tauto.
  - exists (PartCategory.mk 1 "Left" (Some 2)). cbn. tauto.
Qed.

Lemma partcount_forest_or_recursion_error_witness :
  (exists n ns,
      (forall limit, (5 < limit)%nat -> partcount limit category_db 1 = Ok n)
      /\ Forall2 (fun child m =>
                    forall limit, (5 < limit)%nat ->
                                  partcount limit category_db (PartCategory.pk child) = Ok m)
                 (category_children category_db 1) ns
      /\ n = count (category_parts category_db 1) + sum ns)
  /\ (forall limit,
         partcount limit cyclic_db 1
         = Err (RecursionError "maximum recursion depth exceeded")).
Proof.
  split.
  - apply (partcount_forest_or_recursion_error category_db 1).
    exact category_db_forest.
  - apply (partcount_forest_or_recursion_error cyclic_db 1).
    exact cyclic_db_reaches_cycle.
Defined.

(** On two categories that are each other's parent [partcount] ends, under
    every recursion limit, in the recursion error of the interpreter and in
    no error of another class. *)
Lemma partcount_cycle_not_structural_corruption :
  reaches_cycle cyclic_db 1
  /\ forall limit,
       exists e, partcount limit cyclic_db 1 = Err e
                 /\ exc_class e = "RecursionError"
                 /\ exc_class e <> "StructuralCorruption".
Proof.
  split; [exact cyclic_db_reaches_cycle|].
  intros limit. exists recursion_error. split.
  - apply partcount_cycle_raises. exact cyclic_db_reaches_cycle.
  - split; [reflexivity | discriminate].
Qed.

(** The part count of the sample tree, four levels deep: six parts below
    the root, three of them below the first child. *)
Example partcount_category_db :
  partcount 5 category_db 1 = Ok 6
  /\ partcount 5 category_db 2 = Ok 3
  /\ partcount 5 category_db 5 = Ok 2.
Proof. repeat split. Qed.

(** ** Worked examples *)

(** One active build of two Gadgets, five Widgets each: ten Widgets are
    allocated, in a single entry. *)
Example build_allocation_factory :
  build_allocation factory 1 = [mkAllocation gadget_build 10]
  /\ allocated_build_count factory 1 = 10
  /\ available_stock factory 1 = 2.
Proof. repeat split. Qed.

(** Beyond [exact_bound] the conversion to a double rounds: the division of
    [can_build] then differs from the integer quotient. *)
Example int_float_div_rounds :
  int_float_div (2 ^ 53 + 1) 1 = Ok (2 ^ 53).
Proof. vm_compute. reflexivity. Qed.

(** The edge that closes the three-level cycle also passes the whole model
    validation and is stored. *)
Example chain_db_cycle_stored :
  let self := mkBomItemInstance (new_part 3 "C" "bottom" true)
                                (new_part 1 "A" "top" true) 1 "" in
  full_clean chain_db self = Ok tt
  /\ bom_items (fst (add_edge chain_db self))
     = [BomItem.mk 1 2 1 ""; BomItem.mk 2 3 1 ""; BomItem.mk 3 1 1 ""].
Proof. split; reflexivity. Qed.

(** * Further properties *)

(** ** Verdicts of the BOM validation *)

Lemma uses_save (db : Database) (self : BomItemInstance) (a b : Z) :
  uses (save_bom_item db self) a b
  <-> uses db a b \/ (a = Part.pk (part self) /\ b = Part.pk (sub_part self)).
Proof.
  unfold uses, save_bom_item. cbn [bom_items]. split.
  - intros (item & Hin & Ha & Hb). apply in_app_iff in Hin as [Hin|[<-|[]]].
    + left. now exists item.
    + right. cbn in Ha, Hb. auto.
  - intros [(item & Hin & Ha & Hb)|[-> ->]].
    + exists item. rewrite in_app_iff. auto.
    + eexists. rewrite in_app_iff. split; [right; left; reflexivity|]. cbn. auto.
Qed.

Lemma uses_bom_items (db : Database) (a b : Z) :
  uses db a b
  <-> exists item, In item (part_bom_items db a) /\ BomItem.sub_part item = b.
Proof.
  unfold uses, part_bom_items. split.
  - intros (item & Hin & Ha & Hb). exists item. rewrite filter_In, Z.eqb_eq. auto.
  - intros (item & Hin & Hb). apply filter_In in Hin as [Hin Ha].
    apply Z.eqb_eq in Ha. now exists item.
Qed.

Lemma clean_passes_iff (db : Database) (self : BomItemInstance) :
  clean db self = Ok tt
  <-> Part.pk (part self) <> Part.pk (sub_part self)
      /\ ~ uses db (Part.pk (sub_part self)) (Part.pk (part self)).
Proof.
  split.
  - intros H.
    assert (Hne : Part.pk (part self) <> Part.pk (sub_part self)).
    { intros Heq. unfold clean in H. apply Z.eqb_eq in Heq. rewrite Heq in H.
      discriminate. }
    split; [exact Hne|]. intros Hu.
    rewrite (clean_recursive db self Hne Hu) in H. discriminate.
  - intros [Hne Hu]. unfold clean.
    destruct (Z.eqb_spec (Part.pk (part self)) (Part.pk (sub_part self)));
      [contradiction|].
    apply clean_loop_passes. intros item Hin Hsub. apply Hu.
    apply uses_bom_items. now exists item.
Qed.

(** The three verdicts of [BomItem.clean] and exactly when each is given:
    it passes when the two parts differ and the sub-part does not list the
    part; it raises the self-reference error when the two parts are the same;
    it raises the recursive error when they differ and the sub-part lists the
    part. *)
Theorem clean_verdict (db : Database) (self : BomItemInstance) :
  let same := Part.pk (part self) = Part.pk (sub_part self) in
  let listed := uses db (Part.pk (sub_part self)) (Part.pk (part self)) in
  (clean db self = Ok tt <-> ~ same /\ ~ listed)
  /\ (clean db self = Err (ValidationError [self_reference_message]) <-> same)
  /\ (clean db self
      = Err (ValidationError [recursive_message (part self) (sub_part self)])
      <-> ~ same /\ listed).
Proof.
  intros same listed. subst same listed.
  split; [apply clean_passes_iff|]. split.
  - split.
    + intros H. unfold clean in H.
      destruct (Z.eqb_spec (Part.pk (part self)) (Part.pk (sub_part self)));
        [assumption|].
      exfalso. revert H.
      generalize (part_bom_items db (Part.pk (sub_part self))).
      induction l as [|x l IH]; cbn [for_each]; [discriminate|].
      destruct (Part.pk (part self) =? BomItem.sub_part x); cbn [bind].
      * intros H. inversion H.
      * exact IH.
    + intros H. unfold clean. apply Z.eqb_eq in H. now rewrite H.
  - split.
    + intros H.
      assert (Hne : Part.pk (part self) <> Part.pk (sub_part self)).
      { intros Heq. unfold clean in H. apply Z.eqb_eq in Heq. rewrite Heq in H.
        inversion H. }
      split; [exact Hne|].
      destruct (clean db self) as [[]|e] eqn:E; [discriminate|].
      apply uses_bom_items. unfold clean in E.
      destruct (Z.eqb_spec (Part.pk (part self)) (Part.pk (sub_part self)));
        [contradiction|].
      apply for_each_raised in E as (item & s & Hin & Hit).
      exists item. split; [exact Hin|].
      destruct (Z.eqb_spec (Part.pk (part self)) (BomItem.sub_part item));
        [congruence | discriminate].
    + intros [Hne Hu]. now apply clean_recursive.
Qed.

(** An instance whose part and sub-part are the same part is rejected with
    the self-reference message, whatever the table holds, and the error is
    among those of the whole model validation. *)
Theorem self_reference_rejected (db : Database) (self : BomItemInstance) :
  Part.pk (part self) = Part.pk (sub_part self) ->
  clean db self = Err (ValidationError [self_reference_message])
  /\ exists errors,
       full_clean db self = Err (ValidationError errors)
       /\ In self_reference_message errors.
Proof.
  intros Hsame.
  assert (H : clean db self = Err (ValidationError [self_reference_message])).
  { unfold clean. apply Z.eqb_eq in Hsame. now rewrite Hsame. }
  split; [exact H|]. now apply full_clean_collects.
Qed.

Lemma self_reference_rejected_witness :
  clean chain_db (mkBomItemInstance (new_part 1 "A" "top" true)
                                    (new_part 1 "A" "top" true) 1 "")
  = Err (ValidationError ["A part cannot contain itself as a BOM item"]).
Proof.
  apply (self_reference_rejected chain_db
           (mkBomItemInstance (new_part 1 "A" "top" true)
                              (new_part 1 "A" "top" true) 1 "")).
  reflexivity.
Defined.

Lemma no_two_cycle_save (db : Database) (self : BomItemInstance) :
  clean db self = Ok tt ->
  no_two_cycle db ->
  no_two_cycle (save_bom_item db self).
Proof.
  intros Hclean Hinv a b Hab Hba.
  apply clean_passes_iff in Hclean as [Hne Hnot].
  apply uses_save in Hab. apply uses_save in Hba.
  destruct Hab as [Hab|[-> ->]], Hba as [Hba|[Ha Hb]].
  - now apply (Hinv a b).
  - subst. contradiction.
  - contradiction.
  - congruence.
Qed.

(** A table without two-cycles (and so without self-loops) stays so when an
    instance that passed [clean] is saved. *)
Theorem clean_keeps_no_two_cycle (db : Database) (self : BomItemInstance) :
  clean db self = Ok tt ->
  no_two_cycle db ->
  no_two_cycle (save_bom_item db self).
Proof. apply no_two_cycle_save. Qed.

Lemma chain_db_no_two_cycle : no_two_cycle chain_db.
Proof.
  intros a b (i & Hi & Ha & Hb) (j & Hj & Ha' & Hb'). cbn in Hi, Hj.
  destruct Hi as [<-|[<-|[]]], Hj as [<-|[<-|[]]]; cbn in *; lia.
Qed.

Lemma clean_keeps_no_two_cycle_witness :
  no_two_cycle
    (save_bom_item chain_db
       (mkBomItemInstance (new_part 1 "A" "top" true)
                          (new_part 3 "C" "bottom" true) 2 "")).
Proof.
  apply clean_keeps_no_two_cycle.
  - reflexivity.
  - exact chain_db_no_two_cycle.
Defined.

(** ** What the model validation accepts *)

Lemma ForeignKey_validate_ok_iff (f : ForeignKey) (db : Database) (value : Z) :
  ForeignKey_validate f db value = []
  <-> exists p, In p (parts db) /\ Part.pk p = value /\ limit_choices_to f p = true.
Proof.
  unfold ForeignKey_validate.
  destruct (existsb _ (parts db)) eqn:E.
  - apply existsb_exists in E as (p & Hin & Hp).
    apply andb_prop in Hp as [Hpk Hlim]. apply Z.eqb_eq in Hpk.
    split; [|reflexivity]. intros _. now exists p.
  - split; [discriminate|]. intros (p & Hin & Hpk & Hlim). exfalso.
    assert (existsb (fun p => (Part.pk p =? value) && limit_choices_to f p)
                    (parts db) = true); [|congruence].
    apply existsb_exists. exists p. split; [exact Hin|].
    apply Z.eqb_eq in Hpk. now rewrite Hpk, Hlim.
Qed.

Lemma MinValueValidator_ok_iff (limit value : Z) :
  MinValueValidator limit value = [] <-> limit <= value.
Proof.
  unfold MinValueValidator. destruct (Z.ltb_spec value limit).
  - split; [discriminate | lia].
  - split; [lia | reflexivity].
Qed.


Lemma validate_unique_ok_iff (db : Database) (self : BomItemInstance) :
  validate_unique db self = []
  <-> ~ uses db (Part.pk (part self)) (Part.pk (sub_part self)).
Proof.
  unfold validate_unique.
  destruct (existsb _ (bom_items db)) eqn:E.
  - apply existsb_exists in E as (item & Hin & Hp).
    apply andb_prop in Hp as [Ha Hb]. apply Z.eqb_eq in Ha, Hb.
    split; [discriminate|]. intros Hn. exfalso. apply Hn. now exists item.
  - split; [|reflexivity]. intros _ (item & Hin & Ha & Hb).
    assert (existsb (fun item => (BomItem.part item =? Part.pk (part self))
                                 && (BomItem.sub_part item =? Part.pk (sub_part self)))
                    (bom_items db) = true); [|congruence].
    apply existsb_exists. exists item. split; [exact Hin|].
    apply Z.eqb_eq in Ha, Hb. now rewrite Ha, Hb.
Qed.

Lemma clean_outcome (db : Database) (self : BomItemInstance) :
  clean db self = Ok tt \/ exists msg, clean db self = Err (ValidationError [msg]).
Proof.
  unfold clean.
  destruct (Part.pk (part self) =? Part.pk (sub_part self)); [right; eauto|].
  induction (part_bom_items db (Part.pk (sub_part self))) as [|x l IH];
    cbn [for_each]; [now left|].
  destruct (Part.pk (part self) =? BomItem.sub_part x); cbn [bind];
    [right; eauto | exact IH].
Qed.

Lemma full_clean_ok (db : Database) (self : BomItemInstance) :
  full_clean db self = Ok tt
  <-> ForeignKey_validate part_field db (Part.pk (part self)) = []
      /\ ForeignKey_validate sub_part_field db (Part.pk (sub_part self)) = []
      /\ MinValueValidator 0 (item_quantity self) = []
      /\ MaxLengthValidator 100 (note self) = []
      /\ clean db self = Ok tt
      /\ validate_unique db self = [].
Proof.
  unfold full_clean, clean_fields.
  set (e1 := ForeignKey_validate part_field _ _).
  set (e2 := ForeignKey_validate sub_part_field _ _).
  set (e3 := MinValueValidator _ _). set (e4 := MaxLengthValidator _ _).
  split.
  - intros H.
    destruct (e1 ++ e2 ++ e3 ++ e4 ++ _ ++ _) eqn:E; [|discriminate].
    apply app_eq_nil in E as [E1 E]. apply app_eq_nil in E as [E2 E].
    apply app_eq_nil in E as [E3 E]. apply app_eq_nil in E as [E4 E].
    apply app_eq_nil in E as [E5 E6].
    rewrite E1, E2 in E6. repeat split; try assumption.
    destruct (clean_outcome db self) as [Hc|[msg Hc]]; [exact Hc|].
    rewrite Hc in E5. discriminate.
  - intros (E1 & E2 & E3 & E4 & E5 & E6).
    rewrite E1, E2, E3, E4, E5, E6. reflexivity.
Qed.


(** A pair of parts that already is a BOM line is refused a second line:
    when both keys pass their field checks, the model validation raises with
    the uniqueness message. *)
Theorem duplicate_edge_rejected (db : Database) (self : BomItemInstance) :
  ForeignKey_validate part_field db (Part.pk (part self)) = [] ->
  ForeignKey_validate sub_part_field db (Part.pk (sub_part self)) = [] ->
  uses db (Part.pk (part self)) (Part.pk (sub_part self)) ->
  exists errors,
    full_clean db self = Err (ValidationError errors)
    /\ In unique_message errors.
Proof.
  intros E1 E2 Hu. unfold full_clean, clean_fields. rewrite E1, E2.
  assert (E6 : validate_unique db self = [unique_message]).
  { unfold validate_unique.
    destruct (existsb _ (bom_items db)) eqn:E; [reflexivity|].
    exfalso. assert (H : validate_unique db self = [])
      by (unfold validate_unique; now rewrite E).
    now apply validate_unique_ok_iff in H. }
  rewrite E6. cbn [app].
  match goal with |- context [match ?l with [] => Ok tt | _ => _ end] =>
    assert (Hin : In unique_message l)
      by (rewrite !in_app_iff; cbn; tauto);
    destruct l as [|x errors]; [contradiction|]
  end.
  exists (x :: errors). split; [reflexivity | exact Hin].
Qed.

Lemma duplicate_edge_rejected_witness :
  exists errors,
    full_clean chain_db (mkBomItemInstance (new_part 1 "A" "top" true)
                                           (new_part 2 "B" "middle" true) 3 "")
    = Err (ValidationError errors)
    /\ In unique_message errors.
Proof.
  apply duplicate_edge_rejected.
  - reflexivity.
  - reflexivity.
  - exists (BomItem.mk 1 2 1 ""). cbn. tauto.
Defined.

Lemma NoDup_snoc {A : Type} (l : list A) (x : A) :
  NoDup l -> ~ In x l -> NoDup (l ++ [x]).
Proof.
  intros Hnd Hx. induction Hnd as [|y l Hy Hnd IH]; cbn.
  - constructor; [intros []|constructor].
  - constructor.
    + rewrite in_app_iff. cbn. intros [H|[H|[]]]; [contradiction|].
      apply Hx. now left.
    + apply IH. intros H. apply Hx. now right.
Qed.

(** An instance that passed the model validation leaves the BOM table well
    formed when it is saved: still no two-cycle, one line per pair, lines
    between stored parts, no negative quantity. *)
Theorem validated_save_keeps_bom_wellformed (db : Database) (self : BomItemInstance) :
  full_clean db self = Ok tt ->
  bom_wellformed db ->
  bom_wellformed (save_bom_item db self).
Proof.
  intros Hfull (Hcyc & Huniq & Hrefs & Hquant).
  apply full_clean_ok in Hfull as (E1 & E2 & E3 & _ & Hclean & E6).
  apply ForeignKey_validate_ok_iff in E1 as (p1 & Hin1 & Hpk1 & _).
  apply ForeignKey_validate_ok_iff in E2 as (p2 & Hin2 & Hpk2 & _).
  apply MinValueValidator_ok_iff in E3.
  apply validate_unique_ok_iff in E6.
  repeat split.
  - now apply no_two_cycle_save.
  - unfold lines_unique, save_bom_item. cbn [bom_items]. rewrite map_app.
    apply NoDup_snoc; [exact Huniq|]. cbn [map].
    intros Hin. apply in_map_iff in Hin as (item & Hpair & Hin).
    apply E6. exists item. injection Hpair as Ha Hb. auto.
  - cbn [save_bom_item bom_items parts] in H.
    apply in_app_iff in H as [H|[<-|[]]]; [now apply Hrefs|].
    cbn. rewrite <- Hpk1. now apply in_map.
  - cbn [save_bom_item bom_items parts] in H.
    apply in_app_iff in H as [H|[<-|[]]]; [now apply Hrefs|].
    cbn. rewrite <- Hpk2. now apply in_map.
  - cbn [save_bom_item bom_items]. apply Forall_app. split; [exact Hquant|].
    repeat constructor. exact E3.
Qed.

Lemma chain_db_wellformed : bom_wellformed chain_db.
Proof.
  split; [exact chain_db_no_two_cycle|]. split; [|split].
  - unfold lines_unique. cbn. repeat constructor; cbn; intuition congruence.
  - intros item Hin. cbn in Hin. destruct Hin as [<-|[<-|[]]]; cbn; tauto.
  - cbn. repeat constructor; cbn; lia.
Qed.

Lemma validated_save_keeps_bom_wellformed_witness :
  bom_wellformed
    (save_bom_item chain_db
       (mkBomItemInstance (new_part 1 "A" "top" true)
                          (new_part 3 "C" "bottom" true) 2 "")).
Proof.
  apply validated_save_keeps_bom_wellformed.
  - reflexivity.
  - exact chain_db_wellformed.
Defined.

(** After a line is saved the parent has a BOM with one more line and the
    sub-part is used in one more BOM; the BOM and the uses of every other
    part are as before. *)
Theorem save_bom_item_lookup (db : Database) (self : BomItemInstance) :
  let db' := save_bom_item db self in
  part_bom_items db' (Part.pk (part self))
  = part_bom_items db (Part.pk (part self)) ++ [row_of self]
  /\ used_in db' (Part.pk (sub_part self))
     = used_in db (Part.pk (sub_part self)) ++ [row_of self]
  /\ has_bom db' (Part.pk (part self)) = true
  /\ bom_count db' (Part.pk (part self)) = bom_count db (Part.pk (part self)) + 1
  /\ used_in_count db' (Part.pk (sub_part self))
     = used_in_count db (Part.pk (sub_part self)) + 1
  /\ (forall p, p <> Part.pk (part self) ->
                part_bom_items db' p = part_bom_items db p)
  /\ (forall p, p <> Part.pk (sub_part self) -> used_in db' p = used_in db p).
Proof.
  intros db'.
  assert (H1 : part_bom_items db' (Part.pk (part self))
               = part_bom_items db (Part.pk (part self)) ++ [row_of self]).
  { unfold part_bom_items, db', save_bom_item. cbn [bom_items].
    rewrite filter_app. cbn. now rewrite Z.eqb_refl. }
  assert (H2 : used_in db' (Part.pk (sub_part self))
               = used_in db (Part.pk (sub_part self)) ++ [row_of self]).
  { unfold used_in, db', save_bom_item. cbn [bom_items].
    rewrite filter_app. cbn. now rewrite Z.eqb_refl. }
  split; [exact H1|]. split; [exact H2|].
  assert (H3 : bom_count db' (Part.pk (part self))
               = bom_count db (Part.pk (part self)) + 1).
  { unfold bom_count, count. rewrite H1, length_app. cbn. lia. }
  split.
  { unfold has_bom. rewrite H3. unfold bom_count, count.
    apply Z.gtb_lt. lia. }
  split; [exact H3|]. split.
  { unfold used_in_count, count. rewrite H2, length_app. cbn. lia. }
  split.
  - intros p Hp. unfold part_bom_items, db', save_bom_item. cbn [bom_items].
    rewrite filter_app. cbn.
    destruct (Z.eqb_spec (Part.pk (part self)) p); [congruence|].
    apply app_nil_r.
  - intros p Hp. unfold used_in, db', save_bom_item. cbn [bom_items].
    rewrite filter_app. cbn.
    destruct (Z.eqb_spec (Part.pk (sub_part self)) p); [congruence|].
    apply app_nil_r.
Qed.

(** ** Builds, allocation and the buildable quantity *)

Lemma filter_split_length {A : Type} (f : A -> bool) (l : list A) :
  (List.length (filter f l) + List.length (filter (fun x => negb (f x)) l)
   = List.length l)%nat.
Proof.
  induction l as [|x l IH]; cbn; [reflexivity|].
  destruct (f x); cbn; lia.
Qed.

Lemma filter_split_sum {A : Type} (f : A -> bool) (g : A -> Z) (l : list A) :
  sum (map g (filter f l)) + sum (map g (filter (fun x => negb (f x)) l))
  = sum (map g l).
Proof.
  induction l as [|x l IH]; cbn [filter map]; [reflexivity|].
  destruct (f x); cbn [negb map]; rewrite !sum_cons; lia.
Qed.

(** The builds of a part split into the active and the inactive ones: every
    build is in exactly one of the two lists, and the quantity being built
    and the quantity of the inactive builds add up to the quantity of all
    builds of the part. *)
Theorem builds_partition (db : Database) (self : Z) :
  (forall b, In b (part_builds db self)
             <-> In b (active_builds db self) \/ In b (inactive_builds db self))
  /\ (forall b, ~ (In b (active_builds db self) /\ In b (inactive_builds db self)))
  /\ (List.length (active_builds db self) + List.length (inactive_builds db self)
      = List.length (part_builds db self))%nat
  /\ quantity_being_built db self
     + sum (map Build.quantity (inactive_builds db self))
     = sum (map Build.quantity (part_builds db self)).
Proof.
  unfold quantity_being_built, active_builds, inactive_builds.
  split; [|split; [|split]].
  - intros b. rewrite !filter_In. destruct (Build.is_active b); cbn; intuition.
  - intros b. rewrite !filter_In.
    destruct (Build.is_active b); cbn; intuition discriminate.
  - apply filter_split_length.
  - apply (filter_split_sum Build.is_active Build.quantity).
Qed.

(** What is allocated of a part is, summed over the BOM lines that use it,
    the line quantity times the quantity being built of the line's parent. *)
Theorem allocated_build_count_formula (db : Database) (self : Z) :
  allocated_build_count db self
  = sum (map (fun item =>
                BomItem.quantity item * quantity_being_built db (BomItem.part item))
             (used_in db self))
  /\ List.length (build_allocation db self)
     = List.length
         (flat_map (fun item => active_builds db (BomItem.part item))
                   (used_in db self)).
Proof.
  split; [apply allocated_build_count_by_line|].
  rewrite build_allocation_flat_map.
  induction (used_in db self) as [|item l IH]; cbn [flat_map]; [reflexivity|].
  rewrite !length_app, IH. unfold allocations_of. now rewrite length_map.
Qed.

(** When no parent that uses the part has an active build, nothing is
    allocated and the available stock is the total stock (clamped at zero);
    so it is for a part that no BOM uses. *)
Theorem nothing_allocated (db : Database) (self : Z) :
  (forall item, In item (used_in db self) ->
                active_builds db (BomItem.part item) = []) ->
  build_allocation db self = []
  /\ allocation_count db self = 0
  /\ available_stock db self = Z.max (total_stock db self) 0.
Proof.
  intros H.
  assert (Hnil : build_allocation db self = []).
  { rewrite build_allocation_flat_map.
    induction (used_in db self) as [|item l IH]; [reflexivity|].
    cbn [flat_map]. unfold allocations_of at 1.
    rewrite (H item) by now left. cbn. apply IH. intros i Hi. apply H. now right. }
  assert (Hzero : allocation_count db self = 0).
  { rewrite allocation_count_eq. unfold allocated_build_count. now rewrite Hnil. }
  split; [exact Hnil|]. split; [exact Hzero|].
  unfold available_stock. rewrite Hzero. f_equal. lia.
Qed.

Lemma nothing_allocated_witness :
  available_stock factory 2 = Z.max (total_stock factory 2) 0
  /\ allocation_count factory 4 = 0.
Proof.
  split.
  - apply (nothing_allocated factory 2).
    intros item Hin. cbn in Hin. destruct Hin as [<-|[]]. reflexivity.
  - apply (nothing_allocated factory 4). intros item [].
Defined.


(** Whatever [can_build] returns is not negative. *)
Theorem can_build_nonneg (db : Database) (self : Z) (n : Z) :
  can_build db self = Ok n -> 0 <= n.
Proof.
  unfold can_build. destruct (has_bom db self); cbn [negb].
  - destruct (for_each _ _ _) as [[t|]|e]; cbn [bind max_total_0];
      try discriminate.
    intros [= <-]. lia.
  - intros [= <-]. apply available_stock_nonneg.
Qed.

Lemma can_build_nonneg_witness : can_build factory 1 = Ok 3 /\ 0 <= 3.
Proof.
  split; [reflexivity|]. apply (can_build_nonneg factory 1 3). reflexivity.
Defined.








(** ** A new BOM line and the buildable quantity *)

Lemma used_in_save_other (db : Database) (self : BomItemInstance) (s : Z) :
  s <> Part.pk (sub_part self) ->
  used_in (save_bom_item db self) s = used_in db s.
Proof.
  intros Hs. unfold used_in, save_bom_item. cbn [bom_items].
  rewrite filter_app. cbn.
  destruct (Z.eqb_spec (Part.pk (sub_part self)) s); [congruence|].
  apply app_nil_r.
Qed.

Lemma available_stock_save_other (db : Database) (self : BomItemInstance) (s : Z) :
  s <> Part.pk (sub_part self) ->
  available_stock (save_bom_item db self) s = available_stock db s.
Proof.
  intros Hs. unfold available_stock, allocation_count, allocated_build_count,
    build_allocation.
  rewrite (used_in_save_other db self s Hs). reflexivity.
Qed.

Lemma fold_min_snoc (l : list Z) (a x : Z) :
  fold_left Z.min (l ++ [x]) a = Z.min (fold_left Z.min l a) x.
Proof. now rewrite fold_left_app. Qed.

(** Adding a line to the BOM of a part that already has one never raises
    its buildable quantity: the new figure is at most the old one and at
    most what the new line allows (all lines within the range of exact
    doubles). *)
Theorem new_line_never_raises_can_build
        (db : Database) (self : BomItemInstance)
        (item : BomItem.t) (items : list BomItem.t) :
  let db' := save_bom_item db self in
  ~ uses db (Part.pk (part self)) (Part.pk (sub_part self)) ->
  part_bom_items db (Part.pk (part self)) = item :: items ->
  Forall (exact_line db) (item :: items) ->
  exact_line db' (row_of self) ->
  exists n n',
    can_build db (Part.pk (part self)) = Ok n
    /\ can_build db' (Part.pk (part self)) = Ok n'
    /\ n' <= n
    /\ n' <= units_covered db' (row_of self).
Proof.
  intros db' Hnew Hbom Hex Hexn.
  assert (Hother : forall i, In i (item :: items) ->
                             BomItem.sub_part i <> Part.pk (sub_part self)).
  { intros i Hi Heq. apply Hnew. apply uses_bom_items. exists i.
    rewrite Hbom. auto. }
  assert (Hunits : forall i, In i (item :: items) ->
                             units_covered db' i = units_covered db i).
  { intros i Hi. unfold units_covered, db'.
    now rewrite available_stock_save_other by now apply Hother. }
  assert (Hex' : Forall (exact_line db') (item :: items)).
  { rewrite Forall_forall in *. intros i Hi. destruct (Hex i Hi) as [Hq Hs].
    split; [exact Hq|]. unfold db'.
    now rewrite available_stock_save_other by now apply Hother. }
  assert (Hbom' : part_bom_items db' (Part.pk (part self))
                  = item :: (items ++ [row_of self])).
  { unfold part_bom_items, db', save_bom_item. cbn [bom_items].
    rewrite filter_app. fold (part_bom_items db (Part.pk (part self))).
    rewrite Hbom. cbn. now rewrite Z.eqb_refl. }
  assert (Hex'' : Forall (exact_line db') (item :: items ++ [row_of self])).
  { change (item :: items ++ [row_of self])
      with ((item :: items) ++ [row_of self]).
    apply Forall_app. split; [exact Hex'|]. constructor; [exact Hexn | constructor]. }
  rewrite (can_build_exact db _ item items Hbom Hex).
  rewrite (can_build_exact db' _ item _ Hbom' Hex'').
  do 2 eexists. split; [reflexivity|]. split; [reflexivity|].
  unfold minimum. rewrite map_app. cbn [map]. rewrite fold_min_snoc.
  rewrite (Hunits item) by now left.
  rewrite (map_ext_in (units_covered db') (units_covered db))
    by (intros i Hi; apply Hunits; now right).
  set (m := fold_left Z.min _ _).
  assert (0 <= units_covered db' (row_of self))
    by now apply units_covered_nonneg.
  lia.
Qed.

Lemma new_line_never_raises_can_build_witness :
  exists n n',
    can_build factory 1 = Ok n
    /\ can_build (save_bom_item factory (mkBomItemInstance Widget Gadget 6 "")) 1
       = Ok n'
    /\ n' <= n.
Proof.
  destruct (new_line_never_raises_can_build factory
              (mkBomItemInstance Widget Gadget 6 "")
              (BomItem.mk 1 2 4 "") [BomItem.mk 1 3 1 ""])
    as (n & n' & Hn & Hn' & Hle & _).
  - intros (i & Hi & Ha & Hb). cbn in Hi.
    destruct Hi as [<-|[<-|[<-|[]]]]; cbn in Ha, Hb; lia.
  - reflexivity.
  - repeat constructor; unfold exact_bound; cbn; lia.
  - repeat constructor; unfold exact_bound; cbn; lia.
  - exists n, n'. auto.
Defined.

(** ** Part counts and the pre-delete step *)

Lemma partcount_nonneg (db : Database) (limit : nat) :
  forall c n, partcount limit db c = Ok n -> 0 <= n.
Proof.
  induction limit as [|limit IH]; intros c n H; cbn [partcount] in H;
    [discriminate|].
  apply (count_loop (fun child => partcount limit db (PartCategory.pk child)))
    in H as (ns & Hns & ->).
  assert (0 <= sum ns).
  { apply sum_nonneg. clear -Hns IH.
    induction Hns as [|child m l ns Hm _ IHl]; constructor; eauto. }
  unfold count. lia.
Qed.

Lemma sum_member_le (l : list Z) (m : Z) :
  Forall (fun x => 0 <= x) l -> In m l -> m <= sum l.
Proof.
  induction 1 as [|x l Hx Hl IH]; intros Hin; [contradiction|].
  rewrite sum_cons. pose proof (sum_nonneg l Hl).
  destruct Hin as [->|Hin]; [lia|]. specialize (IH Hin). lia.
Qed.

(** A part count that [partcount] returns is at least the number of parts
    directly in the category, positive when the category has parts, and at
    least the count of each child category. *)
Theorem partcount_at_least (db : Database) (limit : nat) (c n : Z) :
  partcount (S limit) db c = Ok n ->
  count (category_parts db c) <= n
  /\ (has_parts db c = true -> 0 < n)
  /\ (forall child, In child (category_children db c) ->
                    exists m, partcount limit db (PartCategory.pk child) = Ok m
                              /\ 0 <= m <= n).
Proof.
  intros H. cbn [partcount] in H.
  apply (count_loop (fun child => partcount limit db (PartCategory.pk child)))
    in H as (ns & Hns & ->).
  assert (Hall : Forall (fun x => 0 <= x) ns).
  { clear -Hns. induction Hns as [|child m l ns Hm _ IHl]; constructor; auto.
    now apply (partcount_nonneg db limit _ _ Hm). }
  pose proof (sum_nonneg ns Hall) as Hsum.
  split; [lia|]. split.
  - unfold has_parts. intros Hp. apply Z.gtb_lt in Hp. lia.
  - intros child Hin.
    assert (exists m, partcount limit db (PartCategory.pk child) = Ok m /\ In m ns)
      as (m & Hm & Hmin).
    { clear -Hns Hin. induction Hns as [|x m l ns Hm _ IHl]; [contradiction|].
      destruct Hin as [->|Hin].
      - exists m. split; [exact Hm | now left].
      - destruct (IHl Hin) as (m' & Hm' & Hin'). exists m'. split; [exact Hm' | now right]. }
    exists m. split; [exact Hm|].
    pose proof (sum_member_le ns m Hall Hmin).
    pose proof (partcount_nonneg db limit _ _ Hm).
    unfold count. lia.
Qed.

Lemma partcount_at_least_witness :
  count (category_parts category_db 1) <= 6
  /\ exists m, partcount 4 category_db 2 = Ok m /\ 0 <= m <= 6.
Proof.
  destruct (partcount_at_least category_db 4 1 6 eq_refl) as (Hdirect & _ & Hchild).
  split; [exact Hdirect|].
  apply (Hchild (PartCategory.mk 2 "Electronics" (Some 1))). cbn. tauto.
Defined.

Lemma save_part_loop_tables (l : list Part.t) (R : option Z) (db : Database) :
  let db' := fold_left (fun db part => save_part db (Part.set_category part R)) l db in
  bom_items db' = bom_items db /\ stock_items db' = stock_items db
  /\ builds db' = builds db.
Proof.
  revert db. induction l as [|x l IH]; intros db; cbn [fold_left].
  - repeat split.
  - apply (IH (save_part db (Part.set_category x R))).
Qed.

Lemma save_category_loop_tables (l : list PartCategory.t) (R : option Z) (db : Database) :
  let db' := fold_left (fun db child => save_category db (set_parent child R)) l db in
  bom_items db' = bom_items db /\ stock_items db' = stock_items db
  /\ builds db' = builds db.
Proof.
  revert db. induction l as [|x l IH]; intros db; cbn [fold_left].
  - repeat split.
  - apply (IH (save_category db (set_parent x R))).
Qed.

Lemma before_delete_other_tables (db : Database) (instance : PartCategory.t) :
  let db' := before_delete_part_category db instance in
  bom_items db' = bom_items db /\ stock_items db' = stock_items db
  /\ builds db' = builds db.
Proof.
  unfold before_delete_part_category.
  set (R := PartCategory.parent instance).
  set (db1 := fold_left _ (category_parts db _) db).
  destruct (save_part_loop_tables (category_parts db (PartCategory.pk instance)) R db)
    as (B1 & S1 & U1). fold db1 in B1, S1, U1.
  destruct (save_category_loop_tables
              (category_children db1 (PartCategory.pk instance)) R db1)
    as (B2 & S2 & U2).
  cbv zeta. rewrite B2, S2, U2. auto.
Qed.

Lemma save_row_keys {A : Type} (key : A -> Z) (rows : list A) (x : A) :
  map key (save_row key rows x) = map key rows.
Proof.
  unfold save_row. rewrite map_map. apply map_ext. intros r.
  destruct (Z.eqb_spec (key r) (key x)); congruence.
Qed.

Lemma save_loop_keys {A : Type} (key : A -> Z) (f : A -> A) (l rows : list A) :
  map key (fold_left (fun rows x => save_row key rows (f x)) l rows) = map key rows.
Proof.
  revert rows. induction l as [|x l IH]; intros rows; cbn [fold_left].
  - reflexivity.
  - now rewrite IH, save_row_keys.
Qed.

(** The stock figures read three tables only. *)
Lemma stock_figures_ext (db1 db2 : Database) (p : Z) :
  bom_items db1 = bom_items db2 -> stock_items db1 = stock_items db2 ->
  builds db1 = builds db2 ->
  total_stock db1 p = total_stock db2 p
  /\ build_allocation db1 p = build_allocation db2 p
  /\ available_stock db1 p = available_stock db2 p
  /\ can_build db1 p = can_build db2 p.
Proof.
  intros B S U.
  unfold can_build, has_bom, bom_count, part_bom_items.
  assert (Hstep : forall t i, can_build_step db1 t i = can_build_step db2 t i).
  { intros t i. unfold can_build_step, available_stock, total_stock, stock_entries,
      locations, allocation_count, allocated_build_count, build_allocation,
      used_in, active_builds, part_builds.
    now rewrite B, S, U. }
  assert (Hloop : forall l t, for_each l (can_build_step db1) t
                              = for_each l (can_build_step db2) t).
  { induction l as [|i l IH]; intros t; cbn [for_each]; [reflexivity|].
    rewrite Hstep. destruct (can_build_step db2 t i); cbn [bind]; auto. }
  rewrite Hloop.
  unfold available_stock, total_stock, stock_entries,
    locations, allocation_count, allocated_build_count, build_allocation,
    used_in, active_builds, part_builds.
  rewrite B, S, U. auto.
Qed.

Lemma before_delete_keys (db : Database) (instance : PartCategory.t) :
  let db' := before_delete_part_category db instance in
  map Part.pk (parts db') = map Part.pk (parts db)
  /\ map PartCategory.pk (categories db') = map PartCategory.pk (categories db).
Proof.
  intros db'. split.
  - unfold db', before_delete_part_category.
    set (R := PartCategory.parent instance).
    set (db1 := fold_left _ (category_parts db _) db).
    destruct (save_part_loop (category_parts db (PartCategory.pk instance)) R db)
      as [Hp1 _]. fold db1 in Hp1.
    destruct (save_category_loop
                (category_children db1 (PartCategory.pk instance)) R db1)
      as [_ Hp2].
    cbv zeta. rewrite Hp2, Hp1.
    apply (save_loop_keys Part.pk (fun x => Part.set_category x R)).
  - unfold db', before_delete_part_category.
    set (R := PartCategory.parent instance).
    set (db1 := fold_left _ (category_parts db _) db).
    destruct (save_part_loop (category_parts db (PartCategory.pk instance)) R db)
      as [_ Hc1]. fold db1 in Hc1.
    destruct (save_category_loop
                (category_children db1 (PartCategory.pk instance)) R db1)
      as [Hc2 _].
    cbv zeta. rewrite Hc2.
    rewrite (save_loop_keys PartCategory.pk (fun x => set_parent x R)).
    now rewrite Hc1.
Qed.

(** The pre-delete step rewrites category links only: the keys of the part
    and category rows stay, and the stock, allocation and buildable figures
    of every part are what they were. *)
Theorem category_delete_keeps_figures (db : Database) (instance : PartCategory.t)
        (p : Z) :
  let db' := before_delete_part_category db instance in
  map Part.pk (parts db') = map Part.pk (parts db)
  /\ map PartCategory.pk (categories db') = map PartCategory.pk (categories db)
  /\ total_stock db' p = total_stock db p
  /\ build_allocation db' p = build_allocation db p
  /\ available_stock db' p = available_stock db p
  /\ can_build db' p = can_build db p.
Proof.
  intros db'.
  destruct (before_delete_other_tables db instance) as (B & S & U).
  destruct (before_delete_keys db instance) as (K1 & K2).
  fold db' in B, S, U, K1, K2.
  split; [exact K1|]. split; [exact K2|]. now apply stock_figures_ext.
Qed.

Section Moved.

Context {A : Type}.
Variable link : A -> option Z.
Variable set_link : A -> option Z -> A.
Hypothesis link_set : forall a v, link (set_link a v) = v.
Variable c : Z.
Variable r : option Z.
Hypothesis r_not_c : r <> Some c.

Lemma moved_none (l : list A) :
filter (fun a => option_Z_eqb (link a) (Some c))
       (map (fun a => if option_Z_eqb (link a) (Some c) then set_link a r else a) l)
= [].
Proof.
induction l as [|a l IH]; cbn [map filter]; [reflexivity|].
destruct (option_Z_eqb (link a) (Some c)) eqn:E.
- rewrite link_set.
  destruct (option_Z_eqb r (Some c)) eqn:E'; [|exact IH].
  apply option_Z_eqb_eq in E'. contradiction.
- rewrite E. exact IH.
Qed.

Lemma moved_count (l : list A) (k : Z) :
r = Some k ->
count (filter (fun a => option_Z_eqb (link a) (Some k))
              (map (fun a => if option_Z_eqb (link a) (Some c)
                             then set_link a r else a) l))
= count (filter (fun a => option_Z_eqb (link a) (Some k)) l)
  + count (filter (fun a => option_Z_eqb (link a) (Some c)) l).
Proof.
intros Hr. unfold count.
induction l as [|a l IH]; cbn [map filter]; [reflexivity|].
destruct (option_Z_eqb (link a) (Some c)) eqn:E.
- rewrite link_set.
  replace (option_Z_eqb r (Some k)) with true
    by (symmetry; now apply option_Z_eqb_eq).
  destruct (option_Z_eqb (link a) (Some k)) eqn:E'.
  + apply option_Z_eqb_eq in E, E'. exfalso. apply r_not_c. congruence.
  + cbn [List.length]. lia.
- destruct (option_Z_eqb (link a) (Some k)); cbn [List.length]; lia.
Qed.

Lemma moved_twice (l : list A) :
let g := fun a => if option_Z_eqb (link a) (Some c) then set_link a r else a in
map g (map g l) = map g l.
Proof.
intros g. rewrite map_map. apply map_ext. intros a. unfold g.
destruct (option_Z_eqb (link a) (Some c)) eqn:E.
- rewrite link_set.
  destruct (option_Z_eqb r (Some c)) eqn:E'; [|reflexivity].
  apply option_Z_eqb_eq in E'. contradiction.
- now rewrite E.
Qed.

End Moved.

Lemma Database_eq (d1 d2 : Database) :
  categories d1 = categories d2 -> parts d1 = parts d2 ->
  bom_items d1 = bom_items d2 -> stock_items d1 = stock_items d2 ->
  builds d1 = builds d2 -> d1 = d2.
Proof. destruct d1, d2; cbn; intros; congruence. Qed.

Lemma before_delete_unique (db : Database) (instance : PartCategory.t) :
  primary_keys_unique db ->
  primary_keys_unique (before_delete_part_category db instance).
Proof.
  intros [H1 H2]. destruct (before_delete_keys db instance) as [K1 K2].
  split; [now rewrite K1 | now rewrite K2].
Qed.

(** After the pre-delete step the category is empty: it has no parts and no
    child categories left and counts zero parts; the parts and the child
    categories it had are counted with those of its parent. *)
Theorem category_delete_moves_counts (db : Database) (instance : PartCategory.t) :
  primary_keys_unique db ->
  PartCategory.parent instance <> Some (PartCategory.pk instance) ->
  let db' := before_delete_part_category db instance in
  let C := PartCategory.pk instance in
  category_parts db' C = []
  /\ category_children db' C = []
  /\ has_parts db' C = false
  /\ (forall limit, partcount (S limit) db' C = Ok 0)
  /\ (forall R, PartCategory.parent instance = Some R ->
                count (category_parts db' R)
                = count (category_parts db R) + count (category_parts db C)
                /\ count (category_children db' R)
                   = count (category_children db R) + count (category_children db C)).
Proof.
  intros Hu Hself db' C.
  destruct (before_delete_tables db instance Hu) as [Hp Hc].
  fold db' in Hp, Hc. fold C in Hp, Hc.
  assert (Hparts : category_parts db' C = []).
  { unfold category_parts. rewrite Hp.
    apply (moved_none Part.category Part.set_category); [reflexivity|exact Hself]. }
  assert (Hchildren : category_children db' C = []).
  { unfold category_children. rewrite Hc.
    apply (moved_none PartCategory.parent set_parent); [reflexivity|exact Hself]. }
  split; [exact Hparts|]. split; [exact Hchildren|]. split.
  { unfold has_parts. now rewrite Hparts. }
  split.
  { intros limit. cbn [partcount]. now rewrite Hchildren, Hparts. }
  intros R HR. split.
  - unfold category_parts. rewrite Hp.
    apply (moved_count Part.category Part.set_category); auto.
  - unfold category_children. rewrite Hc.
    apply (moved_count PartCategory.parent set_parent); auto.
Qed.

Lemma category_delete_moves_counts_witness :
  let Electronics := PartCategory.mk 2 "Electronics" (Some 1) in
  let db' := before_delete_part_category category_db Electronics in
  partcount 1 db' 2 = Ok 0
  /\ count (category_parts db' 1) = 1 + 1
  /\ count (category_children db' 1) = 2 + 1.
Proof.
  intros Electronics db'.
  destruct (category_delete_moves_counts category_db Electronics)
    as (_ & _ & _ & Hzero & Hmoved).
  - split; cbn; repeat constructor; cbn; intuition lia.
  - cbn. discriminate.
  - split; [apply Hzero|]. apply (Hmoved 1 eq_refl).
Defined.

(** Running the pre-delete step a second time changes nothing. *)
Theorem category_delete_idempotent (db : Database) (instance : PartCategory.t) :
  primary_keys_unique db ->
  PartCategory.parent instance <> Some (PartCategory.pk instance) ->
  before_delete_part_category (before_delete_part_category db instance) instance
  = before_delete_part_category db instance.
Proof.
  intros Hu Hself. set (db' := before_delete_part_category db instance).
  pose proof (before_delete_unique db instance Hu) as Hu'. fold db' in Hu'.
  destruct (before_delete_tables db instance Hu) as [Hp Hc].
  destruct (before_delete_tables db' instance Hu') as [Hp' Hc'].
  destruct (before_delete_other_tables db' instance) as (B & S & U).
  fold db' in Hp, Hc.
  apply Database_eq; try assumption.
  - rewrite Hc', Hc.
    apply (moved_twice PartCategory.parent set_parent); [reflexivity|exact Hself].
  - rewrite Hp', Hp.
    apply (moved_twice Part.category Part.set_category); [reflexivity|exact Hself].
Qed.

Lemma category_delete_idempotent_witness :
  let Electronics := PartCategory.mk 2 "Electronics" (Some 1) in
  before_delete_part_category
    (before_delete_part_category category_db Electronics) Electronics
  = before_delete_part_category category_db Electronics.
Proof.
  intros Electronics. apply category_delete_idempotent.
  - split; cbn; repeat constructor; cbn; intuition lia.
  - cbn. discriminate.
Defined.

(** ** Strings *)

Lemma str_count_nonneg (c : ascii) (s : string) : 0 <= str_count c s.
Proof. induction s as [|a s IH]; cbn; [lia|]. destruct (Ascii.eqb a c); lia. Qed.

Lemma str_count_app (c : ascii) (a b : string) :
  str_count c (a ++ b) = str_count c a + str_count c b.
Proof. induction a as [|x a IH]; cbn; [reflexivity|]. rewrite IH. lia. Qed.

Lemma split_nonempty (c : ascii) (s : string) : split c s <> [].
Proof.
  destruct s as [|a s]; cbn; [discriminate|].
  destruct (Ascii.eqb a c); [discriminate|]. destruct (split c s); discriminate.
Qed.

Lemma split_no_sep (c : ascii) (s : string) : str_count c s = 0 -> split c s = [s].
Proof.
  induction s as [|a s IH]; cbn; [reflexivity|].
  pose proof (str_count_nonneg c s) as Hn.
  destruct (Ascii.eqb a c); [lia|]. intros H. now rewrite IH by lia.
Qed.

Lemma split_app (c : ascii) (a b : string) :
  split c (a ++ String c b) = split c a ++ split c b.
Proof.
  induction a as [|x a IH]; cbn.
  - now rewrite Ascii.eqb_refl.
  - destruct (Ascii.eqb x c); [now rewrite IH|].
    rewrite IH. pose proof (split_nonempty c a).
    destruct (split c a); [contradiction | reflexivity].
Qed.

Lemma last_app_nonempty {A : Type} (l1 l2 : list A) (d : A) :
  l2 <> [] -> last (l1 ++ l2) d = last l2 d.
Proof.
  intros H. induction l1 as [|x l1 IH]; [reflexivity|].
  cbn [app]. destruct (l1 ++ l2) eqn:E; [|exact IH].
  apply app_eq_nil in E as [_ E]. contradiction.
Qed.

(** The last piece of a name that ends in a dot and a dot-free suffix is
    that suffix. *)
Lemma last_split_suffix (stem ext : string) :
  str_count "." ext = 0 ->
  last (split "." (stem ++ "." ++ ext)) "" = ext.
Proof.
  intros H. change (stem ++ "." ++ ext)%string with (stem ++ String "." ext)%string.
  rewrite split_app, last_app_nonempty by apply split_nonempty.
  now rewrite split_no_sep.
Qed.

Lemma path_join_relative (base fn : string) (a : ascii) :
  starts_with_slash base = false -> ends_with_slash base = false ->
  base <> ""%string -> a <> "/"%char ->
  path_join base (String a fn) = (base ++ "/" ++ String a fn)%string.
Proof.
  intros _ He Hb Ha. unfold path_join. cbn [starts_with_slash].
  apply Ascii.eqb_neq in Ha. rewrite Ha, He.
  apply String.eqb_neq in Hb. now rewrite Hb.
Qed.

(** ** Upload paths *)

(** [rename_part_image] keeps the extension of the uploaded name and nothing
    else of it: a name without a dot gives the bare image name of the part,
    a name [stem.ext] gives that name with [.ext] (and the bare name when
    [ext] is empty), whatever [stem] is. *)
Theorem rename_part_image_extension (pk : option Z) :
  (forall filename,
      str_count "." filename = 0 ->
      rename_part_image pk filename
      = ("part_images/part_" ++ str_pk pk ++ "_img")%string)
  /\ (forall stem ext,
         str_count "." ext = 0 ->
         rename_part_image pk (stem ++ "." ++ ext)
         = ("part_images/part_" ++ str_pk pk ++ "_img"
            ++ (if String.eqb ext "" then "" else "." ++ ext))%string).
Proof.
  split.
  - intros filename H. unfold rename_part_image. rewrite H. reflexivity.
  - intros stem ext H. unfold rename_part_image.
    replace (str_count "." (stem ++ "." ++ ext) >? 0) with true.
    2:{ symmetry. apply Z.gtb_lt. rewrite str_count_app.
        change (str_count "." ("." ++ ext)) with (1 + str_count "." ext).
        pose proof (str_count_nonneg "." stem). lia. }
    rewrite (last_split_suffix stem ext H).
    destruct (String.eqb ext "").
    + reflexivity.
    + cbn. do 17 f_equal. now rewrite string_app_assoc.
Qed.

Lemma rename_part_image_extension_witness :
  rename_part_image (Some 7) "photo.final.PNG" = "part_images/part_7_img.PNG"
  /\ rename_part_image (Some 7) "photo" = "part_images/part_7_img".
Proof.
  destruct (rename_part_image_extension (Some 7)) as [Hbare Hext].
  split.
  - apply (Hext "photo.final" "PNG"). reflexivity.
  - apply Hbare. reflexivity.
Defined.

Lemma uint_chars (d : Decimal.uint) :
  Forall (fun c => In c (chars "0123456789-")) (chars (NilEmpty.string_of_uint d)).
Proof.
  induction d; cbn [NilEmpty.string_of_uint chars]; constructor;
    try assumption; cbn; tauto.
Qed.

Lemma string_of_Z_chars (z : Z) :
  Forall (fun c => In c (chars "0123456789-")) (chars (string_of_Z z)).
Proof.
  unfold string_of_Z, NilZero.string_of_int.
  assert (H : forall d, Forall (fun c => In c (chars "0123456789-"))
                               (chars (NilZero.string_of_uint d))).
  { intros d. unfold NilZero.string_of_uint. destruct d; try apply uint_chars.
    constructor; [cbn; tauto | constructor]. }
  destruct (Z.to_int z) as [d|d]; [apply H|].
  cbn [chars]. constructor; [cbn; tauto | apply H].
Qed.

Lemma string_of_Z_parses (z : Z) :
  NilZero.int_of_string (string_of_Z z) = Some (Z.to_int z).
Proof.
  unfold string_of_Z. apply NilZero.isi.
  - destruct z; cbn; try discriminate.
    intros [= H]. now apply (DecimalPos.Unsigned.to_uint_nonnil p).
  - destruct z; cbn; try discriminate.
    intros [= H]. now apply (DecimalPos.Unsigned.to_uint_nonnil p).
Qed.

Lemma str_pk_chars (pk : option Z) :
  Forall (fun c => c <> "_"%char /\ c <> "/"%char /\ c <> ","%char
                   /\ c <> ascii_of_nat 10)
         (chars (str_pk pk)).
Proof.
  destruct pk as [z|]; cbn [str_pk].
  - eapply Forall_impl; [|apply string_of_Z_chars].
    intros c Hc. cbn in Hc.
    repeat (destruct Hc as [<-|Hc]; [repeat split; discriminate|]).
    contradiction.
  - cbn. repeat constructor; discriminate.
Qed.

Lemma str_pk_inj (a b : option Z) : str_pk a = str_pk b -> a = b.
Proof.
  destruct a as [x|], b as [y|]; cbn [str_pk]; intros H.
  - f_equal. apply DecimalZ.to_int_inj.
    pose proof (string_of_Z_parses x) as Hx. rewrite H, string_of_Z_parses in Hx.
    congruence.
  - pose proof (string_of_Z_parses x) as Hx. rewrite H in Hx. discriminate.
  - pose proof (string_of_Z_parses y) as Hy. rewrite <- H in Hy. discriminate.
  - reflexivity.
Qed.

Lemma append_inj_l (a x y : string) : (a ++ x = a ++ y)%string -> x = y.
Proof. induction a as [|c a IH]; cbn; [auto|]. intros [= H]. auto. Qed.

Lemma prefix_unique (a b x y : string) :
  Forall (fun c => c <> "_"%char) (chars a) ->
  Forall (fun c => c <> "_"%char) (chars b) ->
  (a ++ String "_" x = b ++ String "_" y)%string -> a = b /\ x = y.
Proof.
  revert b. induction a as [|c a IH]; intros [|c' b] Ha Hb H; cbn in *.
  - injection H as ->. auto.
  - injection H as <- _. inversion Hb; subst. congruence.
  - injection H as -> _. inversion Ha; subst. congruence.
  - injection H as -> H. inversion Ha; inversion Hb; subst.
    destruct (IH b) as [-> ->]; auto.
Qed.

Lemma str_pk_no_underscore (pk : option Z) :
  Forall (fun c => c <> "_"%char) (chars (str_pk pk)).
Proof. eapply Forall_impl; [|apply str_pk_chars]. cbn. tauto. Qed.

Lemma rename_part_image_shape (pk : option Z) (filename : string) :
  exists tail,
    rename_part_image pk filename
    = ("part_images/part_" ++ str_pk pk ++ String "_" tail)%string.
Proof.
  unfold rename_part_image. cbv zeta.
  destruct (String.eqb _ "").
  - exists "img"%string. reflexivity.
  - eexists. cbn. do 17 f_equal. rewrite string_app_assoc. reflexivity.
Qed.

Lemma attach_file_shape (pk : option Z) (filename : string) :
  attach_file pk filename
  = ("part_files/" ++ str_pk pk ++ String "_" filename)%string.
Proof.
  unfold attach_file. cbv zeta.
  pose proof (str_pk_chars pk) as Hc.
  destruct (str_pk pk) as [|a s] eqn:E.
  - exfalso. destruct pk as [z|]; [|discriminate].
    cbn in E. pose proof (string_of_Z_parses z) as Hp. rewrite E in Hp.
    discriminate.
  - cbn [append]. inversion Hc as [|? ? (_ & Ha & _) _]; subst.
    rewrite path_join_relative; try reflexivity; try discriminate. exact Ha.
Qed.

(** The stored path of a part image tells the part: two uploads get the same
    path only for the same key. *)
Theorem rename_part_image_identifies_part (pk1 pk2 : option Z) (f1 f2 : string) :
  rename_part_image pk1 f1 = rename_part_image pk2 f2 -> pk1 = pk2.
Proof.
  destruct (rename_part_image_shape pk1 f1) as [t1 ->].
  destruct (rename_part_image_shape pk2 f2) as [t2 ->].
  intros H. apply append_inj_l in H.
  apply prefix_unique in H as [H _]; try apply str_pk_no_underscore.
  now apply str_pk_inj.
Qed.

Lemma rename_part_image_identifies_part_witness :
  rename_part_image (Some 1) "a.png" <> rename_part_image (Some 11) "a.png".
Proof.
  intros H. apply rename_part_image_identifies_part in H. discriminate H.
Defined.

(** The stored path of an attachment tells both the key and the uploaded
    name: [attach_file] is injective. *)
Theorem attach_file_injective (pk1 pk2 : option Z) (f1 f2 : string) :
  attach_file pk1 f1 = attach_file pk2 f2 -> pk1 = pk2 /\ f1 = f2.
Proof.
  rewrite !attach_file_shape. intros H. apply append_inj_l in H.
  apply prefix_unique in H as [H ->]; try apply str_pk_no_underscore.
  split; [now apply str_pk_inj | reflexivity].
Qed.

Lemma attach_file_injective_witness :
  attach_file (Some 1) "2_x.pdf" <> attach_file (Some 12) "x.pdf".
Proof.
  intros H. apply attach_file_injective in H as [H _]. discriminate H.
Defined.

(** ** BOM export *)

Lemma join_cons (sep x y : string) (l : list string) :
  join sep (x :: y :: l) = (x ++ sep ++ join sep (y :: l))%string.
Proof. reflexivity. Qed.

Lemma split_join (c : ascii) (l : list string) :
  l <> [] -> Forall (fun w => str_count c w = 0) l ->
  split c (join (String c "") l) = l.
Proof.
  induction l as [|x l IH]; intros Hne Hall; [contradiction|].
  inversion Hall as [|? ? Hx Hl]; subst.
  destruct l as [|y l].
  - cbn [join]. now apply split_no_sep.
  - rewrite join_cons.
    change (x ++ String c "" ++ join (String c "") (y :: l))%string
      with (x ++ String c (join (String c "") (y :: l)))%string.
    rewrite split_app, (split_no_sep c x Hx), IH; [reflexivity|discriminate|exact Hl].
Qed.

Lemma str_count_join (c : ascii) (sep : string) (l : list string) :
  str_count c sep = 0 -> Forall (fun w => str_count c w = 0) l ->
  str_count c (join sep l) = 0.
Proof.
  intros Hsep. induction 1 as [|x l Hx Hl IH]; [reflexivity|].
  destruct l as [|y l]; [exact Hx|].
  rewrite join_cons, !str_count_app, Hx, Hsep, IH. reflexivity.
Qed.

Lemma join_cons_app (sep a b : string) (l : list string) :
  join sep ((a ++ sep ++ b)%string :: l) = (a ++ sep ++ join sep (b :: l))%string.
Proof.
  destruct l as [|y l]; [reflexivity|].
  rewrite !join_cons. now rewrite !string_app_assoc.
Qed.

Lemma csv_lines (sep : string) (lines : list string) (first : string) :
  fold_left (fun out line => (out ++ sep ++ line)%string) lines first
  = join sep (first :: lines).
Proof.
  revert first. induction lines as [|x lines IH]; intros first; cbn [fold_left].
  - reflexivity.
  - rewrite IH, join_cons_app. reflexivity.
Qed.

Lemma export_bom_csv_join (header : list string) (rows : list (list string)) :
  export_bom_csv header rows = join newline (map (join ",") (header :: rows)).
Proof.
  unfold export_bom_csv. cbn [map]. rewrite <- csv_lines.
  generalize (join "," header).
  induction rows as [|r rows IH]; intros first; cbn [fold_left map];
    [reflexivity | apply IH].
Qed.

Lemma export_rows_loop (db : Database) (l : list BomItem.t) :
  forall acc r,
    for_each l (fun rows it => line <- export_row db it ;; Ok (rows ++ [line])) acc
    = Ok r ->
    exists ls, Forall2 (fun it line => export_row db it = Ok line) l ls
               /\ r = acc ++ ls.
Proof.
  induction l as [|it l IH]; intros acc r H; cbn [for_each] in H.
  - injection H as <-. exists []. split; [constructor | now rewrite app_nil_r].
  - destruct (export_row db it) as [line|e] eqn:E; cbn [bind] in H; [|discriminate].
    destruct (IH _ _ H) as (ls & Hls & ->).
    exists (line :: ls). split; [now constructor | now rewrite <- app_assoc].
Qed.

Lemma get_part_found (db : Database) (pk : Z) :
  In pk (map Part.pk (parts db)) ->
  exists sub, get_part db pk = Ok sub /\ In sub (parts db) /\ Part.pk sub = pk.
Proof.
  intros Hin. unfold get_part.
  destruct (find _ (parts db)) as [sub|] eqn:E.
  - apply find_some in E as [Hs Hpk]. apply Z.eqb_eq in Hpk. now exists sub.
  - exfalso. apply in_map_iff in Hin as (p & Hp & Hin).
    apply (find_none _ _ E) in Hin. apply Z.eqb_neq in Hin. contradiction.
Qed.

Lemma get_part_missing (db : Database) (pk : Z) :
  ~ In pk (map Part.pk (parts db)) ->
  get_part db pk = Err (DoesNotExist "Part matching query does not exist.").
Proof.
  intros Hn. unfold get_part.
  destruct (find _ (parts db)) as [sub|] eqn:E; [|reflexivity].
  exfalso. apply find_some in E as [Hs Hpk]. apply Z.eqb_eq in Hpk.
  apply Hn. rewrite <- Hpk. now apply in_map.
Qed.

Lemma Z_of_string_of_Z (z : Z) : Z_of_string (string_of_Z z) = Some z.
Proof.
  unfold Z_of_string. rewrite string_of_Z_parses. cbn.
  now rewrite DecimalZ.of_to.
Qed.

(** When the sub-parts of the BOM lines of a part are stored, the export
    builds one row per line, in the order of the lines: the name and the
    description of the sub-part, the quantity as a decimal numeral that reads
    back as the quantity, and the note. *)
Theorem export_rows_shape (db : Database) (self : Z) :
  (forall it, In it (part_bom_items db self) ->
              In (BomItem.sub_part it) (map Part.pk (parts db))) ->
  exists rows,
    export_rows db self = Ok rows
    /\ count rows = bom_count db self
    /\ Forall2 (fun it row =>
                  exists sub,
                    In sub (parts db) /\ Part.pk sub = BomItem.sub_part it
                    /\ row = export_line sub it
                    /\ Z_of_string (nth 2 row "") = Some (BomItem.quantity it))
               (part_bom_items db self) rows.
Proof.
  intros Hrefs. unfold export_rows, bom_count.
  assert (H : forall l acc,
             (forall it, In it l -> In (BomItem.sub_part it) (map Part.pk (parts db))) ->
             exists ls,
               for_each l (fun rows it => line <- export_row db it ;; Ok (rows ++ [line]))
                        acc = Ok (acc ++ ls)
               /\ Forall2 (fun it row =>
                             exists sub,
                               In sub (parts db) /\ Part.pk sub = BomItem.sub_part it
                               /\ row = export_line sub it
                               /\ Z_of_string (nth 2 row "")
                                  = Some (BomItem.quantity it)) l ls).
  { induction l as [|it l IH]; intros acc Hl; cbn [for_each].
    - exists []. split; [now rewrite app_nil_r | constructor].
    - destruct (get_part_found db (BomItem.sub_part it)) as (sub & Hget & Hin & Hpk);
        [apply Hl; now left|].
      unfold export_row at 1. rewrite Hget. cbn [bind].
      destruct (IH (acc ++ [export_line sub it])) as (ls & Hloop & Hall);
        [intros i Hi; apply Hl; now right|].
      exists (export_line sub it :: ls). split.
      + unfold export_line in Hloop at 1. rewrite Hloop, <- app_assoc.
        reflexivity.
      + constructor; [|exact Hall]. exists sub. repeat split; try assumption.
        cbn. apply Z_of_string_of_Z. }
  destruct (H (part_bom_items db self) [] Hrefs) as (ls & Hloop & Hall).
  exists ls. split; [exact Hloop|]. split; [|exact Hall].
  unfold count. f_equal. symmetry. eapply Forall2_length. exact Hall.
Qed.

Lemma export_rows_shape_witness :
  exists rows,
    export_rows factory 1 = Ok rows /\ count rows = bom_count factory 1.
Proof.
  destruct (export_rows_shape factory 1) as (rows & Hrows & Hcount & _).
  - intros it Hin. cbn in Hin. destruct Hin as [<-|[<-|[]]]; cbn; tauto.
  - exists rows. auto.
Defined.

(** A BOM line whose sub-part is not stored makes the export raise the
    lookup error, whatever the format asked for, the unknown ones included. *)
Theorem export_bom_missing_part (db : Database) (self : Z) (it : BomItem.t)
        (format : option string) :
  In it (part_bom_items db self) ->
  ~ In (BomItem.sub_part it) (map Part.pk (parts db)) ->
  export_bom db self format
  = Err (DoesNotExist "Part matching query does not exist.").
Proof.
  intros Hin Hmissing. unfold export_bom, export_rows.
  destruct (for_each_raises
              (fun rows it => line <- export_row db it ;; Ok (rows ++ [line]))
              it _ Hin) with (s := @nil (list string)) as [e He].
  - intros s. unfold export_row. rewrite (get_part_missing db _ Hmissing).
    eexists. reflexivity.
  - rewrite He. cbn [bind]. f_equal.
    apply for_each_raised in He as (x & s & _ & Hx).
    unfold export_row, get_part in Hx.
    destruct (find _ (parts db)); cbn [bind] in Hx; [discriminate|].
    now injection Hx as <-.
Qed.

Lemma export_bom_missing_part_witness :
  export_bom (mkDatabase [] [Widget] [BomItem.mk 1 2 4 ""] [] []) 1 (Some "doc")
  = Err (DoesNotExist "Part matching query does not exist.").
Proof.
  apply (export_bom_missing_part _ 1 (BomItem.mk 1 2 4 "")).
  - cbn. tauto.
  - cbn. intros [H|[]]. discriminate H.
Defined.

(** The CSV text of the export reads back: when no field holds a comma or a
    line break, splitting the text at the line breaks and every line at the
    commas gives the header and the rows again. *)
Theorem export_bom_csv_roundtrip (db : Database) (self : Z)
        (rows : list (list string)) :
  export_rows db self = Ok rows ->
  Forall (Forall plain_field) rows ->
  exists text,
    export_bom db self None = Ok (Some text)
    /\ map (split ",") (split (ascii_of_nat 10) text) = export_header :: rows.
Proof.
  intros Hrows Hplain. unfold export_bom. rewrite Hrows. cbn [bind].
  eexists. split; [reflexivity|].
  rewrite export_bom_csv_join.
  assert (Hne : Forall (fun row : list string => row <> []) rows).
  { unfold export_rows in Hrows.
    apply export_rows_loop in Hrows as (ls & Hls & ->). cbn [app].
    clear -Hls. induction Hls as [|it line l ls Hit _ IH]; constructor; auto.
    unfold export_row in Hit. destruct (get_part db _); cbn [bind] in Hit;
      [|discriminate]. injection Hit as <-. discriminate. }
  assert (Hall : Forall (fun row => row <> [] /\ Forall plain_field row)
                        (export_header :: rows)).
  { constructor.
    - split; [discriminate|]. repeat constructor.
    - rewrite Forall_forall in *. intros row Hin. auto. }
  unfold newline. rewrite split_join.
  - rewrite map_map. clear -Hall.
    induction Hall as [|row l [Hr Hp] _ IH]; cbn [map]; [reflexivity|].
    rewrite IH. f_equal. apply split_join; [exact Hr|].
    eapply Forall_impl; [|exact Hp]. intros f [Hc _]. exact Hc.
  - discriminate.
  - apply Forall_map. eapply Forall_impl; [|exact Hall].
    intros row [_ Hp]. apply str_count_join; [reflexivity|].
    eapply Forall_impl; [|exact Hp]. intros f [_ Hn]. exact Hn.
Qed.

Lemma export_bom_csv_roundtrip_witness :
  exists text,
    export_bom factory 1 None = Ok (Some text)
    /\ map (split ",") (split (ascii_of_nat 10) text) = export_header :: widget_rows.
Proof.
  apply export_bom_csv_roundtrip.
  - reflexivity.
  - repeat constructor.
Defined.

Lemma lower_char_idem (a : ascii) : lower_char (lower_char a) = lower_char a.
Proof. destruct a as [[] [] [] [] [] [] [] []]; reflexivity. Qed.

Lemma lower_idem (s : string) : lower (lower s) = lower s.
Proof.
  induction s as [|a s IH]; cbn; [reflexivity|]. now rewrite lower_char_idem, IH.
Qed.

(** The format of the export is read without regard to case and defaults to
    CSV, and CSV is the only format that carries the rows: every other known
    format gives the empty text. *)
Theorem export_bom_format (db : Database) (self : Z) (format : string) :
  export_bom db self (Some format) = export_bom db self (Some (lower format))
  /\ export_bom db self None = export_bom db self (Some "csv")
  /\ (forall text, export_bom db self (Some format) = Ok (Some text) ->
                   lower format <> "csv"%string -> text = ""%string).
Proof.
  split; [|split].
  - unfold export_bom. now rewrite lower_idem.
  - reflexivity.
  - intros text H Hcsv. unfold export_bom in H.
    destruct (export_rows db self); cbn [bind] in H; [|discriminate].
    apply String.eqb_neq in Hcsv. rewrite Hcsv in H.
    repeat match type of H with
           | (if ?b then _ else _) = _ => destruct b
           end; now inversion H.
Qed.

(** ** The part count as a count over the subtree *)

Lemma subtree_reach (db : Database) (limit : nat) :
  forall c k, In k (subtree limit db c) -> clos_refl_trans Z (child_of db) c k.
Proof.
  induction limit as [|limit IH]; intros c k H; cbn [subtree] in H; [contradiction|].
  destruct H as [<-|H]; [apply rt_refl|].
  apply in_flat_map in H as (child & Hchild & Hk).
  apply rt_trans with (PartCategory.pk child); [|now apply IH].
  apply rt_step. apply child_of_children in Hchild as [Hin Hpar]. now exists child.
Qed.

Lemma partcount_children_return (db : Database) (limit : nat) (c n : Z) :
  partcount (S limit) db c = Ok n ->
  exists ns,
    Forall2 (fun child m => partcount limit db (PartCategory.pk child) = Ok m)
            (category_children db c) ns
    /\ n = count (category_parts db c) + sum ns.
Proof.
  intros H. cbn [partcount] in H.
  now apply (count_loop (fun child => partcount limit db (PartCategory.pk child))).
Qed.

Lemma Forall2_In_l {A B : Type} (P : A -> B -> Prop) (l : list A) (l' : list B) (x : A) :
  Forall2 P l l' -> In x l -> exists y, In y l' /\ P x y.
Proof.
  induction 1 as [|a b l l' Hab _ IH]; intros Hin; [contradiction|].
  destruct Hin as [->|Hin].
  - exists b. split; [now left | exact Hab].
  - destruct (IH Hin) as (y & Hy & Hp). exists y. split; [now right | exact Hp].
Qed.

(** When [partcount] returns, the visit has seen every category that can be
    reached from [c]. *)
Lemma partcount_subtree_complete (db : Database) (limit : nat) :
  forall c n k,
    partcount limit db c = Ok n ->
    clos_refl_trans Z (child_of db) c k -> In k (subtree limit db c).
Proof.
  induction limit as [|limit IH]; intros c n k H Hreach; [discriminate|].
  apply clos_rt_rt1n in Hreach. destruct Hreach as [|d k Hcd Hdk]; [now left|].
  right. cbn [subtree].
  destruct (partcount_children_return db limit c n H) as (ns & Hns & _).
  destruct Hcd as (row & Hin & Hpk & Hpar).
  assert (Hrow : In row (category_children db c))
    by (apply child_of_children; auto).
  destruct (Forall2_In_l _ _ _ row Hns Hrow) as (m & _ & Hm).
  apply in_flat_map. exists row. split; [exact Hrow|].
  apply (IH _ m); [exact Hm|]. rewrite Hpk. now apply clos_rt1n_rt.
Qed.

Lemma partcount_sum_subtree (db : Database) (limit : nat) :
  forall c n,
    partcount limit db c = Ok n ->
    n = sum (map (fun k => count (category_parts db k)) (subtree limit db c)).
Proof.
  induction limit as [|limit IH]; intros c n H; [discriminate|].
  destruct (partcount_children_return db limit c n H) as (ns & Hns & ->).
  cbn [subtree map]. rewrite sum_cons. f_equal. clear H.
  induction Hns as [|child m l ns Hm _ IHl]; cbn [flat_map]; [reflexivity|].
  rewrite map_app, sum_app, sum_cons, <- IHl, <- (IH _ _ Hm). reflexivity.
Qed.

Lemma indicator_sum (x : Z) (l : list Z) :
  NoDup l ->
  sum (map (fun k => if k =? x then 1 else 0) l)
  = if existsb (Z.eqb x) l then 1 else 0.
Proof.
  induction 1 as [|k l Hk Hl IH]; [reflexivity|].
  cbn [map existsb]. rewrite sum_cons, IH, (Z.eqb_sym x k).
  destruct (Z.eqb_spec k x) as [->|Hne]; cbn [orb]; [|lia].
  replace (existsb (Z.eqb x) l) with false; [lia|].
  symmetry. apply not_true_is_false. intros H.
  apply existsb_exists in H as (y & Hy & Hxy). apply Z.eqb_eq in Hxy. now subst.
Qed.

(** Summing the direct counts over distinct categories counts every part
    of those categories once. *)
Lemma direct_counts_sum (ps : list Part.t) (ks : list Z) :
  NoDup ks ->
  sum (map (fun k => count (filter (fun p => option_Z_eqb (Part.category p) (Some k)) ps))
           ks)
  = count (filter (categorised_in ks) ps).
Proof.
  intros Hnd. unfold count. induction ps as [|p ps IH]; cbn [filter].
  - cbn. induction ks as [|k ks IHk]; [reflexivity|].
    cbn [map]. rewrite sum_cons. inversion Hnd; subst. now rewrite IHk.
  - rewrite <- (map_ext
                  (fun k => (if option_Z_eqb (Part.category p) (Some k) then 1 else 0)
                            + Z.of_nat (List.length
                                 (filter (fun p => option_Z_eqb (Part.category p) (Some k))
                                         ps)))).
    2:{ intros k. destruct (option_Z_eqb (Part.category p) (Some k));
          cbn [List.length]; lia. }
    assert (Hsplit : forall (f g : Z -> Z) l,
               sum (map (fun k => f k + g k) l) = sum (map f l) + sum (map g l)).
    { intros f g l. induction l as [|k l IHl]; cbn [map]; [reflexivity|].
      rewrite !sum_cons, IHl. lia. }
    rewrite Hsplit, IH. unfold categorised_in at 2.
    destruct (Part.category p) as [x|]; cbn [option_Z_eqb].
    + rewrite (map_ext (fun k => if x =? k then 1 else 0)
                       (fun k => if k =? x then 1 else 0))
        by (intros k; now rewrite Z.eqb_sym).
      rewrite (indicator_sum x ks Hnd).
      destruct (existsb (Z.eqb x) ks); cbn [List.length]; lia.
    + replace (sum (map (fun _ : Z => 0) ks)) with 0; [lia|].
      clear. induction ks as [|k ks IHk]; [reflexivity|].
      cbn [map]. rewrite sum_cons. lia.
Qed.

Lemma unique_parent (db : Database) (a b k : Z) :
  NoDup (map PartCategory.pk (categories db)) ->
  child_of db a k -> child_of db b k -> a = b.
Proof.
  intros Hnd (r1 & H1 & Hk1 & Hp1) (r2 & H2 & Hk2 & Hp2).
  assert (r1 = r2)
    by (apply (unique_row PartCategory.pk (categories db)); congruence).
  subst. congruence.
Qed.

Lemma ancestors_comparable (db : Database) (a b k : Z) :
  NoDup (map PartCategory.pk (categories db)) ->
  clos_refl_trans Z (child_of db) a k ->
  clos_refl_trans Z (child_of db) b k ->
  clos_refl_trans Z (child_of db) a b \/ clos_refl_trans Z (child_of db) b a.
Proof.
  intros Hnd Ha. revert b. apply clos_rt_rtn1 in Ha.
  induction Ha as [|x k Hxk Hax IH]; intros b Hb; [now right|].
  apply clos_rt_rtn1 in Hb. inversion Hb as [|y k' Hyk Hby]; subst.
  - left. apply rt_trans with x; [now apply clos_rtn1_rt | now apply rt_step].
  - assert (x = y) by (eapply unique_parent; eauto). subst.
    apply IH. now apply clos_rtn1_rt.
Qed.

Lemma children_keys_NoDup (db : Database) (c : Z) :
  NoDup (map PartCategory.pk (categories db)) ->
  NoDup (map PartCategory.pk (category_children db c)).
Proof.
  unfold category_children. generalize (categories db).
  induction l as [|x l IH]; cbn [map filter]; intros H; [constructor|].
  inversion H as [|? ? Hx Hl]; subst.
  destruct (option_Z_eqb _ _); [|now apply IH].
  cbn [map]. constructor; [|now apply IH].
  intros Hin. apply Hx. apply in_map_iff in Hin as (y & Hy & Hin).
  apply filter_In in Hin as [Hin _]. rewrite <- Hy. now apply in_map.
Qed.

Lemma NoDup_flat_map_keys {A : Type} (key : A -> Z) (f : Z -> list Z) (l : list A) :
  NoDup (map key l) ->
  (forall x, In x l -> NoDup (f (key x))) ->
  (forall x y k, In x l -> In y l -> key x <> key y ->
                 In k (f (key x)) -> ~ In k (f (key y))) ->
  NoDup (flat_map (fun x => f (key x)) l).
Proof.
  induction l as [|x l IH]; cbn [map flat_map]; intros Hnd Hf Hdis; [constructor|].
  inversion Hnd as [|? ? Hx Hl]; subst.
  apply NoDup_app.
  - apply Hf. now left.
  - apply IH; [exact Hl | intros; apply Hf; now right|].
    intros y z k Hy Hz. apply Hdis; now right.
  - intros k Hk Hin. apply in_flat_map in Hin as (y & Hy & Hky).
    apply (Hdis x y k); auto; [now left | now right|].
    intros Heq. apply Hx. rewrite Heq. now apply in_map.
Qed.

Lemma t_rt_trans (db : Database) (x y z : Z) :
  clos_trans Z (child_of db) x y -> clos_refl_trans Z (child_of db) y z ->
  clos_trans Z (child_of db) x z.
Proof.
  intros Hxy Hyz. revert Hxy.
  induction Hyz as [y z H|y|y w z _ IH1 _ IH2]; intros Hxy.
  - apply t_trans with y; [exact Hxy | now apply t_step].
  - exact Hxy.
  - auto.
Qed.

Lemma siblings_unrelated (db : Database) (c d1 d2 : Z) :
  forest db -> NoDup (map PartCategory.pk (categories db)) ->
  child_of db c d1 -> child_of db c d2 ->
  clos_refl_trans Z (child_of db) d1 d2 -> d1 = d2.
Proof.
  intros Hf Hnd H1 H2 Hreach. apply clos_rt_rtn1 in Hreach.
  inversion Hreach as [|z d2' Hz Hd1z]; subst; [reflexivity|].
  exfalso. assert (z = c) by (eapply unique_parent; eauto). subst z.
  apply (Hf c). apply t_rt_trans with d1; [now apply t_step|].
  now apply clos_rtn1_rt.
Qed.

(** In a forest with unique keys the visit sees no category twice. *)
Lemma subtree_NoDup (db : Database) (limit : nat) :
  forest db -> NoDup (map PartCategory.pk (categories db)) ->
  forall c, NoDup (subtree limit db c).
Proof.
  intros Hf Hnd. induction limit as [|limit IH]; intros c; [constructor|].
  assert (Hedge : forall child, In child (category_children db c) ->
                                child_of db c (PartCategory.pk child)).
  { intros child Hchild. apply child_of_children in Hchild as [Hin Hpar].
    now exists child. }
  cbn [subtree]. constructor.
  - intros Hin. apply in_flat_map in Hin as (child & Hchild & Hc).
    apply subtree_reach in Hc. apply (Hf c).
    apply t_rt_trans with (PartCategory.pk child); [|exact Hc].
    apply t_step. now apply Hedge.
  - apply (NoDup_flat_map_keys PartCategory.pk (subtree limit db)).
    + now apply children_keys_NoDup.
    + intros x _. apply IH.
    + intros x y k Hx Hy Hne Hkx Hky.
      apply subtree_reach in Hkx, Hky.
      destruct (ancestors_comparable db _ _ k Hnd Hkx Hky) as [H|H].
      * apply Hne. apply (siblings_unrelated db c); auto.
      * apply Hne. symmetry. apply (siblings_unrelated db c); auto.
Qed.

Lemma partcount_closed_form (db : Database) (limit : nat) (c : Z) :
  forest db -> primary_keys_unique db ->
  (List.length (categories db) < limit)%nat ->
  partcount limit db c
  = Ok (count (filter (categorised_in (subtree limit db c)) (parts db)))
  /\ NoDup (subtree limit db c)
  /\ (forall k, In k (subtree limit db c)
                <-> clos_refl_trans Z (child_of db) c k).
Proof.
  intros Hf [_ Hnd] Hlimit.
  destruct (partcount_forest_returns db limit c Hf Hlimit) as [n Hn].
  pose proof (subtree_NoDup db limit Hf Hnd c) as Hnodup.
  split; [|split; [exact Hnodup|]].
  - rewrite Hn. f_equal. rewrite (partcount_sum_subtree db limit c n Hn).
    unfold category_parts. now apply direct_counts_sum.
  - intros k. split; [apply subtree_reach|].
    now apply (partcount_subtree_complete db limit c n).
Qed.

(** In a forest with unique keys, once the recursion limit exceeds the
    number of categories, [partcount] returns the number of parts whose
    category is the category itself or one of its descendants, each part
    counted once. *)
Theorem partcount_counts_subtree (db : Database) (limit : nat) (c : Z) :
  forest db -> primary_keys_unique db ->
  (List.length (categories db) < limit)%nat ->
  partcount limit db c
  = Ok (count (filter (categorised_in (subtree limit db c)) (parts db)))
  /\ NoDup (subtree limit db c)
  /\ (forall k, In k (subtree limit db c)
                <-> clos_refl_trans Z (child_of db) c k).
Proof. apply partcount_closed_form. Qed.

Lemma partcount_counts_subtree_witness :
  partcount 6 category_db 2
  = Ok (count (filter (categorised_in (subtree 6 category_db 2)) (parts category_db)))
  /\ subtree 6 category_db 2 = [2; 3; 4].
Proof.
  split; [|reflexivity].
  apply (partcount_counts_subtree category_db 6 2).
  - exact category_db_forest.
  - split; cbn; repeat constructor; cbn; intuition lia.
  - cbn. lia.
Defined.

(** ** Part counts across the pre-delete step *)

Section AfterDelete.

Variable db : Database.
Variable instance : PartCategory.t.
Hypothesis unique : primary_keys_unique db.
Hypothesis stored : In instance (categories db).

Lemma child_of_after (a b : Z) :
child_of (before_delete_part_category db instance) a b
<-> (child_of db (PartCategory.pk instance) b
     /\ PartCategory.parent instance = Some a)
    \/ (child_of db a b /\ a <> PartCategory.pk instance).
Proof.
destruct (before_delete_tables db instance unique) as [_ Hc].
unfold child_of at 1. rewrite Hc. split.
- intros (row' & Hin & Hpk & Hpar).
  apply in_map_iff in Hin as (row & Hrow & Hin).
  destruct (option_Z_eqb (PartCategory.parent row) (Some (PartCategory.pk instance)))
    eqn:E; subst row'.
  + apply option_Z_eqb_eq in E. left. split; [now exists row|exact Hpar].
  + right. split; [now exists row|]. intros ->.
    apply option_Z_eqb_eq in Hpar. congruence.
- intros [[(row & Hin & Hpk & Hpar) HR]|[(row & Hin & Hpk & Hpar) Hne]].
  + exists (set_parent row (PartCategory.parent instance)). split; [|split; [exact Hpk | exact HR]].
    apply in_map_iff. exists row. split; [|exact Hin].
    apply option_Z_eqb_eq in Hpar. now rewrite Hpar.
  + exists row. split; [|split; assumption].
    apply in_map_iff. exists row. split; [|exact Hin].
    destruct (option_Z_eqb (PartCategory.parent row) (Some (PartCategory.pk instance)))
      eqn:E; [|reflexivity].
    apply option_Z_eqb_eq in E. congruence.
Qed.

Lemma parent_edge (r : Z) : PartCategory.parent instance = Some r -> child_of db r (PartCategory.pk instance).
Proof. intros HR. exists instance. auto. Qed.

Lemma only_parent (x : Z) : child_of db x (PartCategory.pk instance) -> PartCategory.parent instance = Some x.
Proof.
intros (row & Hin & Hpk & Hpar). destruct unique as [_ Hnd].
assert (row = instance)
  by (apply (unique_row PartCategory.pk (categories db)); auto).
subst row. exact Hpar.
Qed.

Lemma edge_after_path (a b : Z) :
child_of (before_delete_part_category db instance) a b -> clos_trans Z (child_of db) a b.
Proof.
intros H. apply child_of_after in H as [[Hcb HR]|[Hab _]].
- apply t_trans with (PartCategory.pk instance); apply t_step; [now apply parent_edge | exact Hcb].
- now apply t_step.
Qed.

Lemma trans_after (x y : Z) :
clos_trans Z (child_of (before_delete_part_category db instance)) x y -> clos_trans Z (child_of db) x y.
Proof.
induction 1 as [x y H|x y z _ IH1 _ IH2].
- now apply edge_after_path.
- now apply t_trans with y.
Qed.

Lemma forest_after : forest db -> forest (before_delete_part_category db instance).
Proof. intros Hf c Hc. apply (Hf c). now apply trans_after. Qed.

Lemma reach_after_back (x y : Z) :
clos_refl_trans Z (child_of (before_delete_part_category db instance)) x y -> clos_refl_trans Z (child_of db) x y.
Proof.
induction 1 as [x y H|x|x y z _ IH1 _ IH2].
- apply clos_t_clos_rt. now apply edge_after_path.
- apply rt_refl.
- now apply rt_trans with y.
Qed.

Lemma reach_after_forth (c k : Z) :
c <> (PartCategory.pk instance) ->
clos_refl_trans Z (child_of db) c k ->
clos_refl_trans Z (child_of (before_delete_part_category db instance)) c k
/\ (k = (PartCategory.pk instance) -> exists r, PartCategory.parent instance = Some r /\ clos_refl_trans Z (child_of (before_delete_part_category db instance)) c r).
Proof.
intros Hc Hreach. apply clos_rt_rtn1 in Hreach.
induction Hreach as [|x k Hxk _ [IH1 IH2]].
- split; [apply rt_refl | contradiction].
- split.
  + destruct (Z.eq_dec x (PartCategory.pk instance)) as [->|Hx].
    * destruct (IH2 eq_refl) as (r & HR & Hr).
      apply rt_trans with r; [exact Hr|]. apply rt_step.
      apply child_of_after. left. auto.
    * apply rt_trans with x; [exact IH1|]. apply rt_step.
      apply child_of_after. right. auto.
  + intros ->. exists x. split; [now apply only_parent | exact IH1].
Qed.

Lemma reach_after (c k : Z) :
c <> (PartCategory.pk instance) ->
clos_refl_trans Z (child_of (before_delete_part_category db instance)) c k <-> clos_refl_trans Z (child_of db) c k.
Proof.
intros Hc. split; [apply reach_after_back|].
intros H. now apply reach_after_forth.
Qed.

Lemma reach_parent (c : Z) :
c <> (PartCategory.pk instance) ->
clos_refl_trans Z (child_of db) c (PartCategory.pk instance)
<-> exists r, PartCategory.parent instance = Some r /\ clos_refl_trans Z (child_of db) c r.
Proof.
intros Hc. split.
- intros H. apply clos_rt_rtn1 in H.
  inversion H as [|x k Hx Hcx]; subst; [contradiction|].
  exists x. split; [now apply only_parent | now apply clos_rtn1_rt].
- intros (r & HR & Hr). apply rt_trans with r; [exact Hr|].
  apply rt_step. now apply parent_edge.
Qed.

End AfterDelete.

Lemma existsb_eqb_iff (k : Z) (l : list Z) : existsb (Z.eqb k) l = true <-> In k l.
Proof.
  rewrite existsb_exists. split.
  - intros (x & Hx & E). apply Z.eqb_eq in E. now subst.
  - intros H. exists k. split; [exact H | apply Z.eqb_refl].
Qed.

Lemma bool_eq_iff (a b : bool) : (a = true <-> b = true) -> a = b.
Proof. destruct a, b; intuition congruence. Qed.

(** The pre-delete step leaves the part count of every other category as it
    was: in a forest with unique keys, for a stored category that is
    deleted, [partcount] of any category but the deleted one returns the
    same number before and after. *)
Theorem category_delete_keeps_other_counts
        (db : Database) (instance : PartCategory.t) (limit : nat) (c : Z) :
  forest db -> primary_keys_unique db ->
  In instance (categories db) ->
  c <> PartCategory.pk instance ->
  (List.length (categories db) < limit)%nat ->
  partcount limit (before_delete_part_category db instance) c
  = partcount limit db c.
Proof.
  intros Hf Hu Hin Hc Hlimit.
  set (db' := before_delete_part_category db instance).
  pose proof (forest_after db instance Hu Hin Hf) as Hf'.
  pose proof (before_delete_unique db instance Hu) as Hu'.
  destruct (before_delete_tables db instance Hu) as [Hp Hcs].
  fold db' in Hf', Hu', Hp, Hcs.
  assert (Hlimit' : (List.length (categories db') < limit)%nat)
    by (rewrite Hcs, length_map; exact Hlimit).
  destruct (partcount_closed_form db limit c Hf Hu Hlimit) as (-> & _ & HS).
  destruct (partcount_closed_form db' limit c Hf' Hu' Hlimit') as (-> & _ & HS').
  f_equal. unfold count. f_equal.
  rewrite Hp, filter_map_swap, length_map. f_equal.
  apply filter_ext_in. intros p _.
  assert (Hsame : forall k, In k (subtree limit db' c) <-> In k (subtree limit db c)).
  { intros k. rewrite HS', HS. now apply reach_after. }
  unfold categorised_in.
  destruct (option_Z_eqb (Part.category p) (Some (PartCategory.pk instance))) eqn:E.
  - apply option_Z_eqb_eq in E. cbn [Part.set_category Part.category]. rewrite E.
    apply bool_eq_iff. rewrite existsb_eqb_iff, HS.
    rewrite (reach_parent db instance Hu Hin c Hc).
    destruct (PartCategory.parent instance) as [r|].
    + rewrite existsb_eqb_iff, Hsame, HS. split.
      * intros H. exists r. auto.
      * intros (r' & [= <-] & H). exact H.
    + split; [discriminate|]. intros (r' & [=] & _).
  - destruct (Part.category p) as [k|]; [|reflexivity].
    apply bool_eq_iff. rewrite !existsb_eqb_iff. apply Hsame.
Qed.

Lemma category_delete_keeps_other_counts_witness :
  partcount 6 (before_delete_part_category category_db
                 (PartCategory.mk 2 "Electronics" (Some 1))) 1
  = partcount 6 category_db 1.
Proof.
  apply category_delete_keeps_other_counts.
  - exact category_db_forest.
  - split; cbn; repeat constructor; cbn; intuition lia.
  - cbn. tauto.
  - cbn. lia.
  - cbn. lia.
Defined.
